(** * A shallow embedding of caddyserver/circuitbreaker (circuitbreaker.go)

    The breaker [Simple] is a Go struct shared by the goroutines that
    complete proxied requests.  Its methods are embedded as programs over
    a small instruction set (field accesses, atomic operations on
    [tripped], calls into the memmetrics engine, timers), with two
    semantics: a sequential one ([run]) that executes a whole call on
    behalf of one goroutine, and a small-step one ([step], [exec]) in
    which time passes between instructions and the breaker can be
    observed at every intermediate point. *)

From Stdlib Require Import ZArith Lia Floats.SpecFloat.
From stdpp Require Import gmap strings list.

Local Open Scope Z_scope.

(** ** Go scalar types *)

(** [float64]: IEEE 754 binary64 values ([prec = 53], [emax = 1024]). *)
Definition float64 : Type := spec_float.

(** Go's [a > b] on float64: false as soon as one side is NaN. *)
Definition float64_gt (a b : float64) : bool := SFltb b a.

Definition min_int64 : Z := - 2 ^ 63.
Definition max_int64 : Z := 2 ^ 63 - 1.

(** [int32] arithmetic wraps around. *)
Definition wrap_int32 (z : Z) : Z := (z + 2 ^ 31) mod 2 ^ 32 - 2 ^ 31.

(** The integer part of a float, rounding toward zero; NaN and the
    infinities have none. *)
Definition float64_trunc (f : float64) : option Z :=
  match f with
  | S754_zero _ => Some 0
  | S754_finite s m e =>
      let a := if 0 <=? e then Z.pos m * 2 ^ e else Z.pos m / 2 ^ (- e) in
      Some (if s then - a else a)
  | S754_infinity _ | S754_nan => None
  end.

(** The value of a finite float in units of 2^-1074, the smallest
    positive binary64 value: every finite binary64 value is an integer
    number of them. *)
Definition float64_ulps (f : float64) : option Z :=
  match f with
  | S754_zero _ => Some 0
  | S754_finite s m e =>
      let a := Z.pos m * 2 ^ (e + 1074) in Some (if s then - a else a)
  | S754_infinity _ | S754_nan => None
  end.

(** The Go specification leaves the result of a float-to-integer
    conversion implementation-dependent when the value does not fit the
    integer type.  [Arch] supplies that result. *)
Class Arch := { int64_unrepresentable : float64 -> Z }.

(** amd64: CVTTSD2SQ yields the "integer indefinite" value. *)
Definition amd64 : Arch := {| int64_unrepresentable := fun _ => min_int64 |}.

(** arm64: FCVTZS saturates, and maps NaN to 0. *)
Definition arm64 : Arch :=
  {| int64_unrepresentable := fun f =>
       match f with
       | S754_infinity true | S754_finite true _ _ => min_int64
       | S754_infinity false | S754_finite false _ _ => max_int64
       | _ => 0
       end |}.

(** The conversion [int64(f)]. *)
Definition int64_of_float64 `{Arch} (f : float64) : Z :=
  match float64_trunc f with
  | Some z =>
      if (min_int64 <=? z) && (z <=? max_int64) then z
      else int64_unrepresentable f
  | None => int64_unrepresentable f
  end.

(** [time.Duration] is an int64 count of nanoseconds. *)
Definition Duration : Type := Z.
Definition Nanosecond : Duration := 1.
Definition Microsecond : Duration := 1000 * Nanosecond.
Definition Millisecond : Duration := 1000 * Microsecond.
Definition Second : Duration := 1000 * Millisecond.

(** [d.Nanoseconds()] is [int64(d)]. *)
Definition Nanoseconds (d : Duration) : Z := d.

(** A Go [error] is represented by its message; [(v, err)] results by
    [result]. *)
Definition error : Type := string.

Inductive result (A : Type) : Type :=
| Ok (a : A)
| Err (err : error).
Arguments Ok {A} a.
Arguments Err {A} err.

(** ** Constants and the factor table *)

(** [const ( factorLatency = iota + 1; factorErrorRatio;
    factorStatusCodeRatio; defaultTripDuration = 5 * time.Second )] *)
Definition factorLatency : Z := 0 + 1.
Definition factorErrorRatio : Z := 1 + 1.
Definition factorStatusCodeRatio : Z := 2 + 1.
Definition defaultTripDuration : Duration := 5 * Second.

(** [typeCB] converts a Config Factor value to the internal type. *)
Definition typeCB : gmap string Z :=
  <["latency" := factorLatency]>
    (<["error_ratio" := factorErrorRatio]>
       (<["status_ratio" := factorStatusCodeRatio]> ∅)).

(** ** The statistics engine (memmetrics.RTMetrics)

    The engine is an external collaborator; the breaker only uses the
    methods below.  [M] is the state of an engine, [H] a merged latency
    histogram.  Queries read the engine, [RecordRT] and [Reset] update
    it. *)
Class RTMetrics (M H : Type) := {
  NewRTMetrics : result M;
  RecordRT : Z -> Duration -> M -> M;
  NetworkErrorRatio : M -> float64;
  LatencyHistogram : M -> result H;
  LatencyAtQuantile : H -> float64 -> Duration;
  ResponseCodeRatio : Z -> Z -> Z -> Z -> M -> float64;
  Reset : M -> M
}.

(** ** The breaker *)

(** [Config] represents the configuration of a circuit breaker. *)
Record Config := {
  Threshold : float64;
  Factor : string;
  TripDuration : Duration
}.

(** A timer created by [time.NewTimer]: its channel delivers once the
    clock has reached [when]. *)
Record Timer := { when : Z }.

Section Breaker.
Context {M H : Type} `{RT : RTMetrics M H} `{AR : Arch}.

(** [Simple]; [metrics] is a pointer, nil (here [None]) in a zero
    value. *)
Record Simple := {
  tripped : Z;
  cbFactor : Z;
  metrics : option M;
  config : Config
}.

Definition set_tripped (v : Z) (c : Simple) : Simple :=
  {| tripped := v; cbFactor := cbFactor c; metrics := metrics c;
     config := config c |}.
Definition set_cbFactor (f : Z) (c : Simple) : Simple :=
  {| tripped := tripped c; cbFactor := f; metrics := metrics c;
     config := config c |}.
Definition set_metrics (m : M) (c : Simple) : Simple :=
  {| tripped := tripped c; cbFactor := cbFactor c; metrics := Some m;
     config := config c |}.
Definition set_TripDuration (d : Duration) (c : Simple) : Simple :=
  {| tripped := tripped c; cbFactor := cbFactor c; metrics := metrics c;
     config := {| Threshold := Threshold (config c);
                  Factor := Factor (config c);
                  TripDuration := d |} |}.

(** *** Instructions

    Every access of a method to the receiver [c], to the engine, to the
    constructor of the engine and to the timer is one instruction. *)
Inductive op : Type :=
| load_Factor
| load_TripDuration
| load_Threshold
| load_cbFactor
| store_TripDuration (d : Duration)
| store_cbFactor (f : Z)
| store_metrics (mt : M)
| store_tripped (v : Z)
| memmetrics_NewRTMetrics
| atomic_LoadInt32
| atomic_AddInt32 (delta : Z)
| metrics_Record (statusCode : Z) (latency : Duration)
| metrics_NetworkErrorRatio
| metrics_LatencyHistogram
| metrics_ResponseCodeRatio (startA endA startB endB : Z)
| metrics_Reset
| hist_LatencyAtQuantile (hist : H) (q : float64)
| time_NewTimer (d : Duration)
| timer_recv (t : Timer).

(** What an instruction returns. *)
Definition res (o : op) : Type :=
  match o with
  | load_Factor => string
  | load_TripDuration => Duration
  | load_Threshold => float64
  | load_cbFactor => Z
  | store_TripDuration _ | store_cbFactor _ | store_metrics _
  | store_tripped _ => unit
  | memmetrics_NewRTMetrics => result M
  | atomic_LoadInt32 => Z
  | atomic_AddInt32 _ => Z
  | metrics_Record _ _ => unit
  | metrics_NetworkErrorRatio => float64
  | metrics_LatencyHistogram => result H
  | metrics_ResponseCodeRatio _ _ _ _ => float64
  | metrics_Reset => unit
  | hist_LatencyAtQuantile _ _ => Duration
  | time_NewTimer _ => Timer
  | timer_recv _ => unit
  end.

(** *** Programs *)
Inductive prog (A : Type) : Type :=
| Ret (a : A)
| Do (o : op) (k : res o -> prog A).
Arguments Ret {A} a.
Arguments Do {A} o k.

Fixpoint bind {A B : Type} (p : prog A) (f : A -> prog B) : prog B :=
  match p with
  | Ret a => f a
  | Do o k => Do o (fun r => bind (k r) f)
  end.

(** The effect of one instruction at time [t] on the breaker [c]. *)
Inductive outcome (R : Type) : Type :=
| Done (r : R) (c : Simple)
| Blocked (until : Z)
| Panic.
Arguments Done {R} r c.
Arguments Blocked {R} until.
Arguments Panic {R}.

Definition with_metrics {R : Type} (c : Simple) (f : M -> outcome R)
  : outcome R :=
  match metrics c with
  | Some m => f m
  | None => Panic (* nil pointer dereference *)
  end.

Definition perform (o : op) (t : Z) (c : Simple) : outcome (res o) :=
  match o return outcome (res o) with
  | load_Factor => Done (Factor (config c)) c
  | load_TripDuration => Done (TripDuration (config c)) c
  | load_Threshold => Done (Threshold (config c)) c
  | load_cbFactor => Done (cbFactor c) c
  | store_TripDuration d => Done tt (set_TripDuration d c)
  | store_cbFactor f => Done tt (set_cbFactor f c)
  | store_metrics mt => Done tt (set_metrics mt c)
  | store_tripped v => Done tt (set_tripped v c)
  | memmetrics_NewRTMetrics => Done NewRTMetrics c
  | atomic_LoadInt32 => Done (tripped c) c
  | atomic_AddInt32 delta =>
      let v := wrap_int32 (tripped c + delta) in
      Done v (set_tripped v c)
  | metrics_Record statusCode latency =>
      with_metrics c (fun m =>
        Done tt (set_metrics (RecordRT statusCode latency m) c))
  | metrics_NetworkErrorRatio =>
      with_metrics c (fun m => Done (NetworkErrorRatio m) c)
  | metrics_LatencyHistogram =>
      with_metrics c (fun m => Done (LatencyHistogram m) c)
  | metrics_ResponseCodeRatio startA endA startB endB =>
      with_metrics c (fun m =>
        Done (ResponseCodeRatio startA endA startB endB m) c)
  | metrics_Reset =>
      with_metrics c (fun m => Done tt (set_metrics (Reset m) c))
  | hist_LatencyAtQuantile hist q => Done (LatencyAtQuantile hist q) c
  | time_NewTimer d => Done {| when := t + d |} c
  | timer_recv tm =>
      if when tm <=? t then Done tt c else Blocked (when tm)
  end.

(** *** Worlds: the breaker, the clock, and the instructions executed
    so far with the time of their execution. *)
Record World := {
  breaker : Simple;
  now : Z;
  log : list (Z * op)
}.

Definition commit (o : op) (c : Simple) (w : World) : World :=
  {| breaker := c; now := now w; log := log w ++ [(now w, o)] |}.

Definition tick (dt : N) (w : World) : World :=
  {| breaker := breaker w; now := now w + Z.of_N dt; log := log w |}.

Definition sleep_until (t : Z) (w : World) : World :=
  {| breaker := breaker w; now := t; log := log w |}.

(** Small-step semantics: execute the next instruction, if the program
    has one and it is not blocked. *)
Definition step {A : Type} (p : prog A) (w : World)
  : option (prog A * World) :=
  match p with
  | Ret _ => None
  | Do o k =>
      match perform o (now w) (breaker w) with
      | Done r c => Some (k r, commit o c w)
      | Blocked _ | Panic => None
      end
  end.

(** A schedule lets time pass or lets the goroutine take a step. *)
Inductive label : Type :=
| Tick (dt : N)
| Step.

Definition exec1 {A : Type} (l : label) (s : prog A * World)
  : option (prog A * World) :=
  match l with
  | Tick dt => Some (fst s, tick dt (snd s))
  | Step => step (fst s) (snd s)
  end.

Fixpoint exec {A : Type} (sched : list label) (s : prog A * World)
  : option (prog A * World) :=
  match sched with
  | [] => Some s
  | l :: sched' =>
      match exec1 l s with
      | Some s' => exec sched' s'
      | None => None
      end
  end.

(** Sequential semantics: the goroutine runs the program to its end;
    where an instruction blocks, it sleeps until the instruction is
    enabled.  [None] is a panic. *)
Definition wake (o : op) (w : World) : World :=
  match perform o (now w) (breaker w) with
  | Blocked t => sleep_until t w
  | _ => w
  end.

Fixpoint run {A : Type} (p : prog A) (w : World) : option (A * World) :=
  match p with
  | Ret a => Some (a, w)
  | Do o k =>
      let w1 := wake o w in
      match perform o (now w1) (breaker w1) with
      | Done r c => run (k r) (commit o c w1)
      | Blocked _ | Panic => None
      end
  end.
End Breaker.

Arguments Simple : clear implicits.
Arguments op : clear implicits.
Arguments prog : clear implicits.
Arguments World : clear implicits.
Arguments Ret {M H A} a.
Arguments Do {M H A} o k.
Arguments Done {M R} r c.
Arguments Blocked {M R} until.
Arguments Panic {M R}.

Declare Scope prog_scope.
Delimit Scope prog_scope with prog.
Notation "x <- o ;; k" := (Do o (fun x => k))
  (at level 100, o at next level, k at level 200, right associativity)
  : prog_scope.
Notation "o ;; k" := (Do o (fun _ => k))
  (at level 100, k at level 200, right associativity) : prog_scope.
Notation "x <<- p ;; k" := (bind p (fun x => k))
  (at level 100, p at next level, k at level 200, right associativity)
  : prog_scope.

(** ** The methods of [Simple] *)
Section Methods.
Context {M H : Type} `{AR : Arch}.
Local Open Scope prog_scope.

(** [Provision] sets up a configured circuit breaker.  The result is
    the Go [error]; [None] is [nil]. *)
Definition Provision : prog M H (option error) :=
  factor <- load_Factor ;;
  match typeCB !! factor with
  | None => Ret (Some "type is not defined"%string)
  | Some f =>
      d <- load_TripDuration ;;
      _ <<- (if d =? 0
             then store_TripDuration defaultTripDuration ;; Ret tt
             else Ret tt) ;;
      r <- memmetrics_NewRTMetrics ;;
      match r with
      | Err err =>
          Ret (Some (String.append "cannot create new metrics: " err))
      | Ok mt =>
          store_cbFactor f ;;
          store_metrics mt ;;
          store_tripped 0 ;;
          Ret None
      end
  end.

(** [OK] returns whether the circuit breaker is tripped or not. *)
Definition OK : prog M H bool :=
  t <- atomic_LoadInt32 ;;
  Ret (t =? 0).

(** [checkAndSet] checks the metrics to see if the breaker should trip.
    The switch yields [None] where the source returns from inside it,
    and otherwise the value of [isTripped]. *)
Definition checkAndSet : prog M H unit :=
  isTripped <<-
    (f <- load_cbFactor ;;
     if f =? factorErrorRatio then
       ratio <- metrics_NetworkErrorRatio ;;
       threshold <- load_Threshold ;;
       Ret (Some (float64_gt ratio threshold))
     else if f =? factorLatency then
       r <- metrics_LatencyHistogram ;;
       match r with
       | Err _ => Ret None
       | Ok hist =>
           q <- load_Threshold ;;
           l <- hist_LatencyAtQuantile hist q ;;
           threshold <- load_Threshold ;;
           Ret (Some (Z.quot (Nanoseconds l) Millisecond
                      >? int64_of_float64 threshold))
       end
     else if f =? factorStatusCodeRatio then
       ratio <- metrics_ResponseCodeRatio 500 600 0 600 ;;
       threshold <- load_Threshold ;;
       Ret (Some (float64_gt ratio threshold))
     else Ret (Some false)) ;;
  match isTripped with
  | None => Ret tt
  | Some false => Ret tt
  | Some true =>
      metrics_Reset ;;
      atomic_AddInt32 1 ;;
      d <- load_TripDuration ;;
      t <- time_NewTimer d ;;
      timer_recv t ;;
      atomic_AddInt32 (-1) ;;
      Ret tt
  end.

(** [RecordMetric] records a response status code and execution time
    of a request. *)
Definition RecordMetric (statusCode : Z) (latency : Duration)
  : prog M H unit :=
  metrics_Record statusCode latency ;;
  checkAndSet.
End Methods.

(** ** A reference engine

    An instance of the interface over an unbounded window that keeps
    every recorded sample; it stands in for memmetrics where the breaker
    is run on concrete inputs.  Status 502 and 504 count as network
    errors, a ratio with an empty denominator is 0, the histogram query
    fails on an empty window, and the latency at a quantile is taken on
    a 0..100 scale.  [ctor] is the result of constructing an engine. *)
Module ListMetrics.
Record sample := { code : Z; latency : Duration }.

Definition float64_of_Z (z : Z) : float64 :=
  binary_normalize 53 1024 z 0 false.

Definition ratio (a b : Z) : float64 :=
  if b =? 0 then S754_zero false
  else SFdiv 53 1024 (float64_of_Z a) (float64_of_Z b).

Definition count (p : Z -> bool) (m : list sample) : Z :=
  Z.of_nat (List.length (List.filter (fun s => p (code s)) m)).

Definition is_net_error (c : Z) : bool := (c =? 504) || (c =? 502).

Definition in_range (lo hi c : Z) : bool := (lo <=? c) && (c <? hi).

Fixpoint insert_sorted (d : Duration) (l : list Duration)
  : list Duration :=
  match l with
  | [] => [d]
  | x :: l' => if d <=? x then d :: l else x :: insert_sorted d l'
  end.

Definition histogram (m : list sample) : list Duration :=
  List.fold_right (fun s acc => insert_sorted (latency s) acc) [] m.

(** The value at quantile [q]: the sample of rank
    [int64(q / 100 * n + 0.5)], with [q] capped at 100. *)
Definition quantile (h : list Duration) (q : float64) : Duration :=
  let hundred := float64_of_Z 100 in
  let q := if SFltb hundred q then hundred else q in
  let n := float64_of_Z (Z.of_nat (List.length h)) in
  let half := S754_finite false 4503599627370496 (-53) in
  let rank :=
    SFadd 53 1024 (SFmul 53 1024 (SFdiv 53 1024 q hundred) n) half in
  match float64_trunc rank with
  | Some k => List.nth (Z.to_nat (k - 1)) h (List.last h 0)
  | None => 0
  end.

Definition engine (ctor : result (list sample))
  : RTMetrics (list sample) (list Duration) :=
  {| NewRTMetrics := ctor;
     RecordRT := fun c d m => {| code := c; latency := d |} :: m;
     NetworkErrorRatio := fun m =>
       ratio (count is_net_error m) (Z.of_nat (List.length m));
     LatencyHistogram := fun m =>
       match m with
       | [] => Err "empty window"%string
       | _ => Ok (histogram m)
       end;
     LatencyAtQuantile := quantile;
     ResponseCodeRatio := fun startA endA startB endB m =>
       ratio (count (in_range startA endA) m)
             (count (in_range startB endB) m);
     Reset := fun _ => [] |}.
End ListMetrics.

(** ** Observations on executions *)
Section Observations.
Context {M H : Type} `{RT : RTMetrics M H}.

(** The instructions executed between two worlds of one execution. *)
Definition calls (w w' : World M H) : list (Z * op M H) :=
  drop (length (log w)) (log w').

(** A trip is the increment of the tripped counter. *)
Definition is_trip (o : op M H) : bool :=
  match o with
  | atomic_AddInt32 delta => delta =? 1
  | _ => false
  end.

Definition trip_occurs (l : list (Z * op M H)) : bool :=
  existsb (fun e => is_trip (snd e)) l.

(** Writes to the fields of the receiver. *)
Definition is_store (o : op M H) : bool :=
  match o with
  | store_TripDuration _ | store_cbFactor _ | store_metrics _
  | store_tripped _ | atomic_AddInt32 _ => true
  | _ => false
  end.

(** What a call of [OK()] answers in world [w]. *)
Definition OK_now (w : World M H) : option bool :=
  option_map fst (run OK w).

(** [n] calls of [OK()] in a row, with their answers. *)
Fixpoint OK_times (n : nat) : prog M H (list bool) :=
  match n with
  | O => Ret []
  | S n' => bind OK (fun b => bind (OK_times n') (fun bs => Ret (b :: bs)))
  end.

(** The number of whole milliseconds in a duration. *)
Definition floor_ms (d : Duration) : Z := d / Millisecond.

(** The breaker of a configuration before [Provision]: the zero value
    of [Simple] with the configured fields. *)
Definition unprovisioned (cfg : Config) : World M H :=
  {| breaker := {| tripped := 0; cbFactor := 0; metrics := None;
                   config := cfg |};
     now := 0;
     log := [] |}.
End Observations.

(** ** Auxiliary definitions for the proofs about [Provision] *)
Section ProvisionAux.
Context {M H : Type}.

(** The breaker once [Provision] has gone past the default. *)
Definition defaulted (c : Simple M) : Simple M :=
  if TripDuration (config c) =? 0
  then set_TripDuration defaultTripDuration c else c.

(** The instructions of [Provision] up to the construction of the
    engine. *)
Definition provision_prefix (c : Simple M) : list (op M H) :=
  [load_Factor; load_TripDuration] ++
  (if TripDuration (config c) =? 0
   then [store_TripDuration defaultTripDuration] else []) ++
  [memmetrics_NewRTMetrics].
End ProvisionAux.

(** ** Program points of [checkAndSet]

    The body of [if isTripped { ... }] and its suffixes, one per
    instruction. *)
Section ProgramPoints.
Context {M H : Type}.
Local Open Scope prog_scope.

Definition after_wait : prog M H unit :=
  atomic_AddInt32 (-1) ;; Ret tt.
Definition waiting (t : Timer) : prog M H unit :=
  timer_recv t ;; after_wait.
Definition after_load (d : Duration) : prog M H unit :=
  t <- time_NewTimer d ;; waiting t.
Definition after_incr : prog M H unit :=
  d <- load_TripDuration ;; after_load d.
Definition after_reset : prog M H unit :=
  atomic_AddInt32 1 ;; after_incr.
Definition trip_episode : prog M H unit :=
  metrics_Reset ;; after_reset.

(** Instructions that read the receiver or the engine and write
    nothing. *)
Definition is_query (o : op M H) : bool :=
  match o with
  | load_Factor | load_TripDuration | load_Threshold | load_cbFactor
  | atomic_LoadInt32
  | metrics_NetworkErrorRatio | metrics_LatencyHistogram
  | metrics_ResponseCodeRatio _ _ _ _ | hist_LatencyAtQuantile _ _ => true
  | _ => false
  end.

(** The world after the instructions [qs], all executed at the current
    time without effect on the breaker. *)
Definition queried (qs : list (op M H)) (w : World M H) : World M H :=
  {| breaker := breaker w; now := now w;
     log := log w ++ map (pair (now w)) qs |}.

(** The instructions of a trip that starts at time [t] with trip
    duration [d]. *)
Definition episode_log (t : Z) (d : Duration) : list (Z * op M H) :=
  let t_wake := Z.max t (t + d) in
  [(t, metrics_Reset); (t, atomic_AddInt32 1); (t, load_TripDuration);
   (t, time_NewTimer d); (t_wake, timer_recv {| when := t + d |});
   (t_wake, atomic_AddInt32 (-1))].
End ProgramPoints.

(** ** The switch of [checkAndSet], case by case

    [switch_result c m qs isTripped]: on the breaker [c] with engine [m]
    the switch executes the instructions [qs] and leaves [isTripped]
    ([None] where it returns from the function). *)
Section Switch.
Context {M H : Type} `{RT : RTMetrics M H} `{AR : Arch}.

Definition switch_result (c : Simple M) (m : M) (qs : list (op M H))
    (isTripped : option bool) : Prop :=
  let th := Threshold (config c) in
  (cbFactor c = factorErrorRatio ->
   qs = [load_cbFactor; metrics_NetworkErrorRatio; load_Threshold] /\
   isTripped = Some (float64_gt (NetworkErrorRatio m) th)) /\
  (cbFactor c = factorLatency ->
   match LatencyHistogram m with
   | Err _ =>
       qs = [load_cbFactor; metrics_LatencyHistogram] /\
       isTripped = None
   | Ok hist =>
       qs = [load_cbFactor; metrics_LatencyHistogram; load_Threshold;
             hist_LatencyAtQuantile hist th; load_Threshold] /\
       isTripped =
         Some (Z.quot (LatencyAtQuantile hist th) 1000000
               >? int64_of_float64 th)
   end) /\
  (cbFactor c = factorStatusCodeRatio ->
   qs = [load_cbFactor; metrics_ResponseCodeRatio 500 600 0 600;
         load_Threshold] /\
   isTripped = Some (float64_gt (ResponseCodeRatio 500 600 0 600 m) th)) /\
  (cbFactor c <> factorErrorRatio -> cbFactor c <> factorLatency ->
   cbFactor c <> factorStatusCodeRatio ->
   qs = [load_cbFactor] /\ isTripped = Some false).

Definition trips (isTripped : option bool) : bool :=
  match isTripped with
  | Some true => true
  | _ => false
  end.

(** The breaker after a trip that started with engine [m]. *)
Definition after_episode (m : M) (c : Simple M) : Simple M :=
  set_tripped (wrap_int32 (wrap_int32 (tripped c + 1) + -1))
    (set_metrics (Reset m) c).
End Switch.

(** ** Reachable states of a call of [checkAndSet]

    [at_point c0 m0 p c t l]: a goroutine that called [checkAndSet] on
    the breaker [c0] with engine [m0] has [p] left to execute, the
    breaker is [c], the time [t], and [l] are the instructions it has
    executed, with their times. *)
Section Reachable.
Context {M H : Type} `{RT : RTMetrics M H}.

(** Programs that execute queries until they end or start a trip. *)
Inductive quiet : prog M H unit -> Prop :=
| quiet_ret : quiet (Ret tt)
| quiet_trip : quiet trip_episode
| quiet_do (o : op M H) (k : res o -> prog M H unit) :
    is_query o = true -> (forall r, quiet (k r)) -> quiet (Do o k).

Definition queries_only (l : list (Z * op M H)) : Prop :=
  Forall (fun e => is_query (snd e) = true) l.

Variables (c0 : Simple M) (m0 : M).

Definition c_reset : Simple M := set_metrics (Reset m0) c0.
Definition c_open : Simple M :=
  set_tripped (wrap_int32 (tripped c0 + 1)) c_reset.

Inductive at_point :
  prog M H unit -> Simple M -> Z -> list (Z * op M H) -> Prop :=
| pt_switch p t ql :
    quiet p -> queries_only ql ->
    at_point p c0 t ql
| pt_reset t ql t1 :
    queries_only ql -> t1 <= t ->
    at_point after_reset c_reset t (ql ++ [(t1, metrics_Reset)])
| pt_incr t ql t1 t2 :
    queries_only ql -> t2 <= t ->
    at_point after_incr c_open t
      (ql ++ [(t1, metrics_Reset); (t2, atomic_AddInt32 1)])
| pt_load t ql t1 t2 t3 :
    queries_only ql -> t2 <= t3 -> t3 <= t ->
    at_point (after_load (TripDuration (config c0))) c_open t
      (ql ++ [(t1, metrics_Reset); (t2, atomic_AddInt32 1);
              (t3, load_TripDuration)])
| pt_waiting t ql t1 t2 t3 t4 :
    queries_only ql -> t2 <= t4 -> t4 <= t ->
    at_point (waiting {| when := t4 + TripDuration (config c0) |})
      c_open t
      (ql ++ [(t1, metrics_Reset); (t2, atomic_AddInt32 1);
              (t3, load_TripDuration);
              (t4, time_NewTimer (TripDuration (config c0)))])
| pt_woken t ql t1 t2 t3 t4 t5 :
    queries_only ql -> t2 <= t4 ->
    t4 + TripDuration (config c0) <= t5 -> t5 <= t ->
    at_point after_wait c_open t
      (ql ++ [(t1, metrics_Reset); (t2, atomic_AddInt32 1);
              (t3, load_TripDuration);
              (t4, time_NewTimer (TripDuration (config c0)));
              (t5, timer_recv
                     {| when := t4 + TripDuration (config c0) |})])
| pt_done t ql t1 t2 t3 t4 t5 t6 :
    queries_only ql -> t2 <= t4 ->
    t4 + TripDuration (config c0) <= t5 -> t5 <= t6 -> t6 <= t ->
    at_point (Ret tt) (after_episode m0 c0) t
      (ql ++ [(t1, metrics_Reset); (t2, atomic_AddInt32 1);
              (t3, load_TripDuration);
              (t4, time_NewTimer (TripDuration (config c0)));
              (t5, timer_recv
                     {| when := t4 + TripDuration (config c0) |});
              (t6, atomic_AddInt32 (-1))]).
End Reachable.

(** ** What the switch of [checkAndSet] decides

    [threshold_exceeded c m]: on the breaker [c] with engine [m], the
    case of the switch that the factor code selects sets [isTripped]. *)
Section Decision.
Context {M H : Type} `{RT : RTMetrics M H} `{AR : Arch}.

Definition threshold_exceeded (c : Simple M) (m : M) : bool :=
  let th := Threshold (config c) in
  if cbFactor c =? factorErrorRatio then
    float64_gt (NetworkErrorRatio m) th
  else if cbFactor c =? factorLatency then
    match LatencyHistogram m with
    | Err _ => false
    | Ok hist =>
        Z.quot (Nanoseconds (LatencyAtQuantile hist th)) Millisecond
        >? int64_of_float64 th
    end
  else if cbFactor c =? factorStatusCodeRatio then
    float64_gt (ResponseCodeRatio 500 600 0 600 m) th
  else false.

(** [decides c b p]: on the breaker [c], whenever its instructions are
    executed, [p] runs queries and then returns ([b = false]) or starts
    a trip with the reset of the engine ([b = true]). *)
Fixpoint decides (c : Simple M) (b : bool) (p : prog M H unit) : Prop :=
  match p with
  | Ret _ => b = false
  | Do o k =>
      (o = metrics_Reset /\ b = true /\ forall r, k r = after_reset) \/
      (is_query o = true /\
       exists r, (forall t, perform o t c = Done r c) /\ decides c b (k r))
  end.
End Decision.

(** Binary64 constants used in the examples. *)
Definition f64_0_5 : float64 := S754_finite false 4503599627370496 (-53).
Definition f64_200 : float64 := S754_finite false 7036874417766400 (-45).
Definition f64_minus_1 : float64 := S754_finite true 4503599627370496 (-52).
Definition f64_minus_0_5 : float64 :=
  S754_finite true 4503599627370496 (-53).

(** ** Concrete breakers

    Breakers on the reference engine, as [Provision] leaves them, with
    the samples recorded since. *)
Module Examples.
Import ListMetrics.

Definition eng_ok : RTMetrics (list sample) (list Duration) :=
  engine (Ok []).
Definition eng_fail : RTMetrics (list sample) (list Duration) :=
  engine (Err "out of memory"%string).

Definition cfg_unknown : Config :=
  {| Threshold := f64_0_5; Factor := ""; TripDuration := 0 |}.
Definition cfg_status : Config :=
  {| Threshold := f64_0_5; Factor := "status_ratio";
     TripDuration := 1 * Second |}.
Definition cfg_latency : Config :=
  {| Threshold := f64_200; Factor := "latency";
     TripDuration := 1 * Second |}.

Definition in_service (cfg : Config) (f : Z) (m : list sample)
  : World (list sample) (list Duration) :=
  {| breaker := {| tripped := 0; cbFactor := f; metrics := Some m;
                   config := cfg |};
     now := 0;
     log := [] |}.

Definition responses (n : nat) (c : Z) : list sample :=
  List.repeat {| code := c; latency := 20 * Millisecond |} n.

(** 10 responses with status 200, then [n] with status 500 (the newest
    sample is first). *)
Definition window_5xx (n : nat) : list sample :=
  responses n 500 ++ responses 10 200.

(** Latencies of 50, 60, 70 and 900 ms. *)
Definition window_latency : list sample :=
  [ {| code := 200; latency := 900 * Millisecond |};
    {| code := 200; latency := 70 * Millisecond |};
    {| code := 200; latency := 60 * Millisecond |};
    {| code := 200; latency := 50 * Millisecond |} ].

Definition w_status (n : nat) : World (list sample) (list Duration) :=
  in_service cfg_status factorStatusCodeRatio (window_5xx n).
Definition w_error (n : nat) : World (list sample) (list Duration) :=
  in_service
    {| Threshold := f64_0_5; Factor := "error_ratio";
       TripDuration := 1 * Second |}
    factorErrorRatio (responses n 502 ++ responses 10 200).
Definition w_latency (m : list sample)
  : World (list sample) (list Duration) :=
  in_service cfg_latency factorLatency m.

(** Breakers fresh from the configuration. *)
Definition fresh (cfg : Config) : World (list sample) (list Duration) :=
  unprovisioned cfg.
Definition cfg_unset : Config :=
  {| Threshold := f64_200; Factor := "latency"; TripDuration := 0 |}.

(** A latency policy with a threshold of -0.5, and a window of one
    response that took no time. *)
Definition window_instant : list sample :=
  [ {| code := 200; latency := 0 |} ].
Definition w_negative_threshold : World (list sample) (list Duration) :=
  in_service
    {| Threshold := f64_minus_0_5; Factor := "latency";
       TripDuration := 1 * Second |}
    factorLatency window_instant.
End Examples.

(** ** Sequences of calls, and several goroutines

    [session rs] is one goroutine calling [RecordMetric] for each
    response of [rs] in turn.  A [Pool] is a set of goroutines on one
    shared breaker: each instruction is one atomic step (the engine is
    called under its own synchronisation), and a [choice] lets time pass
    or lets one goroutine take its next step. *)
Section Goroutines.
Context {M H : Type} `{RT : RTMetrics M H} `{AR : Arch}.

Fixpoint session (rs : list (Z * Duration)) : prog M H unit :=
  match rs with
  | [] => Ret tt
  | (statusCode, latency) :: rs' =>
      bind (RecordMetric statusCode latency) (fun _ => session rs')
  end.

(** The number of trips among the instructions [l]. *)
Definition trip_count (l : list (Z * op M H)) : Z :=
  Z.of_nat (List.length (List.filter (fun e => is_trip (snd e)) l)).

Record Pool := {
  goroutines : list (prog M H unit);
  shared : World M H
}.

Inductive choice : Type :=
| Pass (dt : N)
| Go (i : nat).

Definition pool_step (ch : choice) (P : Pool) : option Pool :=
  match ch with
  | Pass dt =>
      Some {| goroutines := goroutines P; shared := tick dt (shared P) |}
  | Go i =>
      match goroutines P !! i with
      | Some p =>
          match step p (shared P) with
          | Some (p', w') =>
              Some {| goroutines := <[i := p']> (goroutines P);
                      shared := w' |}
          | None => None
          end
      | None => None
      end
  end.

Fixpoint pool_exec (sched : list choice) (P : Pool) : option Pool :=
  match sched with
  | [] => Some P
  | ch :: sched' =>
      match pool_step ch P with
      | Some P' => pool_exec sched' P'
      | None => None
      end
  end.

(** One goroutine per response, each about to call [RecordMetric]. *)
Definition spawn (rs : list (Z * Duration)) (w : World M H) : Pool :=
  {| goroutines := map (fun r => RecordMetric (fst r) (snd r)) rs;
     shared := w |}.

(** Instructions that leave the tripped counter and the configuration as
    they are. *)
Definition keeps_tripped (o : op M H) : bool :=
  is_query o ||
  match o with
  | metrics_Record _ _ | metrics_Reset => true
  | _ => false
  end.

(** Goroutines that are outside a trip: all they execute before they
    return or increment the counter keeps it as it is, and after the
    increment they are at [after_incr]. *)
Fixpoint idle (p : prog M H unit) : Prop :=
  match p with
  | Ret _ => True
  | Do o k =>
      (keeps_tripped o = true /\ forall r, idle (k r)) \/
      (o = atomic_AddInt32 1 /\ forall r, k r = after_incr)
  end.

(** Goroutines between the increment and the decrement of a trip. *)
Inductive in_episode : prog M H unit -> Prop :=
| ep_incr : in_episode after_incr
| ep_load d : in_episode (after_load d)
| ep_waiting tm : in_episode (waiting tm)
| ep_woken : in_episode after_wait.

(** What a goroutine contributes to the tripped counter. *)
Inductive goroutine_at : prog M H unit -> Z -> Prop :=
| at_idle p : idle p -> goroutine_at p 0
| at_episode p : in_episode p -> goroutine_at p 1.

Definition Zsum (l : list Z) : Z := fold_right Z.add 0 l.

(** The tripped counter is the number of goroutines in a trip, as an
    int32, and the breaker has an engine. *)
Definition pool_inv (P : Pool) : Prop :=
  is_Some (metrics (breaker (shared P))) /\
  exists ks,
    Forall2 goroutine_at (goroutines P) ks /\
    tripped (breaker (shared P)) = wrap_int32 (Zsum ks).
End Goroutines.

Arguments Pool : clear implicits.

(** ** Trips of several goroutines in time

    [timed_at d t p s]: at time [t] a goroutine with [p] left to execute
    is outside a trip ([s = None]), or in the trip it started at time
    [tau] ([s = Some tau]); [d] is the trip duration. *)
Section TimedGoroutines.
Context {M H : Type}.

Inductive timed_at (d : Duration) (t : Z)
  : prog M H unit -> option Z -> Prop :=
| ta_idle p : idle p -> timed_at d t p None
| ta_incr tau : tau <= t -> timed_at d t after_incr (Some tau)
| ta_load tau : tau <= t -> timed_at d t (after_load d) (Some tau)
| ta_waiting tau tm :
    tau <= t -> tau + d <= when tm -> timed_at d t (waiting tm) (Some tau)
| ta_woken tau : tau + d <= t -> timed_at d t after_wait (Some tau).

(** Every trip logged less than [d] ago is the trip of a goroutine that
    is still in it. *)
Definition pool_timed (w0 : World M H) (P : Pool M H) : Prop :=
  let d := TripDuration (config (breaker w0)) in
  config (breaker (shared P)) = config (breaker w0) /\
  is_Some (metrics (breaker (shared P))) /\
  exists ts l,
    Forall2 (timed_at d (now (shared P))) (goroutines P) ts /\
    log (shared P) = log w0 ++ l /\
    forall tau, In (tau, atomic_AddInt32 1) l ->
                now (shared P) < tau + d -> In (Some tau) ts.
End TimedGoroutines.

(** * Properties *)

(** Symbolic execution of a program on a world given by its fields. *)
Ltac world w := destruct w as [[? ? ? [? ? ?]] ? ?]; simpl in *; subst.
Ltac sym :=
  cbn [run wake perform with_metrics commit sleep_until bind
       breaker now log tripped cbFactor metrics config
       Threshold Factor TripDuration
       set_tripped set_cbFactor set_metrics set_TripDuration
       checkAndSet RecordMetric OK Provision].
Ltac calls_norm :=
  unfold calls, commit; cbn [log now breaker];
  rewrite <- ?app_assoc; rewrite drop_app_length; cbn [app map snd].

Section Semantics.
Context {M H : Type} `{RT : RTMetrics M H}.

Lemma run_bind {A B : Type} (p : prog M H A) (f : A -> prog M H B) w :
  run (bind p f) w =
  match run p w with
  | Some (a, w1) => run (f a) w1
  | None => None
  end.
Proof.
  revert w. induction p as [a | o k IH]; intros w; [reflexivity |].
  cbn [bind run]. destruct (perform o _ _); auto.
Qed.

(** Receiving from a timer sleeps until its deadline, if that is still
    ahead. *)
Lemma run_timer_recv {A : Type} (tm : Timer) (k : unit -> prog M H A) w :
  run (Do (timer_recv tm) k) w =
  run (k tt) (commit (timer_recv tm) (breaker w)
                (sleep_until (Z.max (now w) (when tm)) w)).
Proof.
  destruct w as [c t lg]. cbn [run]. unfold wake.
  cbn [perform now breaker].
  destruct (Z.leb_spec (when tm) t) as [Hle | Hlt].
  - cbn [now breaker]. destruct (Z.leb_spec (when tm) t); [| lia].
    rewrite Z.max_l by lia. reflexivity.
  - cbn [sleep_until now breaker]. rewrite Z.leb_refl.
    rewrite Z.max_r by lia. reflexivity.
Qed.

Lemma run_log_grows {A : Type} (p : prog M H A) w a w' :
  run p w = Some (a, w') -> exists l, log w' = log w ++ l.
Proof.
  revert w. induction p as [b | o k IH]; intros w; cbn [run].
  - intros [= -> ->]. exists []. symmetry. apply app_nil_r.
  - destruct (perform o _ _) as [r c | |] eqn:Hp; try discriminate.
    intros Hrun. destruct (IH _ _ Hrun) as [l Hl]. rewrite Hl.
    cbn [log commit]. assert (Hw : log (wake o w) = log w).
    { unfold wake. destruct (perform o (now w) (breaker w)); reflexivity. }
    rewrite Hw, <- app_assoc. eauto.
Qed.

Lemma calls_app (w w' : World M H) l :
  log w' = log w ++ l -> calls w w' = l.
Proof. intros E. unfold calls. rewrite E. apply drop_app_length. Qed.

Lemma calls_refl (w : World M H) : calls w w = [].
Proof. apply calls_app. symmetry. apply app_nil_r. Qed.
End Semantics.

Section FactorTable.
Lemma typeCB_unknown (factor : string) :
  factor <> "latency"%string -> factor <> "error_ratio"%string ->
  factor <> "status_ratio"%string -> typeCB !! factor = None.
Proof.
  intros H1 H2 H3. unfold typeCB.
  rewrite !lookup_insert_ne by congruence. apply lookup_empty.
Qed.

Lemma typeCB_known (factor : string) (f : Z) :
  typeCB !! factor = Some f ->
  (factor = "latency"%string /\ f = factorLatency) \/
  (factor = "error_ratio"%string /\ f = factorErrorRatio) \/
  (factor = "status_ratio"%string /\ f = factorStatusCodeRatio).
Proof.
  unfold typeCB. intros Hl.
  destruct (decide (factor = "latency"%string)) as [-> | N1].
  { rewrite lookup_insert_eq in Hl. left. split; congruence. }
  rewrite lookup_insert_ne in Hl by congruence.
  destruct (decide (factor = "error_ratio"%string)) as [-> | N2].
  { rewrite lookup_insert_eq in Hl. right; left. split; congruence. }
  rewrite lookup_insert_ne in Hl by congruence.
  destruct (decide (factor = "status_ratio"%string)) as [-> | N3].
  { rewrite lookup_insert_eq in Hl. right; right. split; congruence. }
  rewrite lookup_insert_ne in Hl by congruence.
  rewrite lookup_empty in Hl. discriminate.
Qed.
End FactorTable.

(** ** Provision *)
Section ProvisionProps.
Context {M H : Type} `{RT : RTMetrics M H}.

(** Every path through [Provision], with the result, the final breaker
    and the instructions executed. *)
Lemma Provision_cases (w : World M H) :
  exists r w', run Provision w = Some (r, w') /\ now w' = now w /\
    match typeCB !! Factor (config (breaker w)) with
    | None =>
        r = Some "type is not defined"%string /\
        breaker w' = breaker w /\
        map snd (calls w w') = [load_Factor]
    | Some f =>
        match NewRTMetrics with
        | Err e =>
            r = Some (String.append "cannot create new metrics: " e) /\
            breaker w' = defaulted (breaker w) /\
            map snd (calls w w') = provision_prefix (breaker w)
        | Ok mt =>
            r = None /\
            breaker w' =
              set_tripped 0 (set_metrics mt
                (set_cbFactor f (defaulted (breaker w)))) /\
            map snd (calls w w') =
              provision_prefix (breaker w) ++
              [store_cbFactor f; store_metrics mt; store_tripped 0]
        end
    end.
Proof.
  world w. unfold defaulted, provision_prefix. sym.
  destruct (typeCB !! Factor0) as [f |]; sym.
  - destruct (Z.eqb_spec TripDuration0 0) as [-> | Hd]; sym;
      destruct NewRTMetrics as [mt | e]; sym;
      eexists _, _; (split; [reflexivity |]); (split; [reflexivity |]);
      repeat split; calls_norm; reflexivity.
  - eexists _, _; (split; [reflexivity |]); (split; [reflexivity |]);
      repeat split; calls_norm; reflexivity.
Qed.

Lemma defaulted_fields (c : Simple M) :
  tripped (defaulted c) = tripped c /\
  cbFactor (defaulted c) = cbFactor c /\
  metrics (defaulted c) = metrics c /\
  Threshold (config (defaulted c)) = Threshold (config c) /\
  Factor (config (defaulted c)) = Factor (config c).
Proof. unfold defaulted. destruct (_ =? _); repeat split. Qed.

Lemma defaulted_TripDuration (c : Simple M) :
  TripDuration (config (defaulted c)) =
  if TripDuration (config c) =? 0 then defaultTripDuration
  else TripDuration (config c).
Proof. unfold defaulted. destruct (_ =? _); reflexivity. Qed.

(** C6: when the factor string of the configuration is none of
    "latency", "error_ratio" and "status_ratio" (the empty string
    included), [Provision] returns an error, writes no field of the
    breaker and constructs no engine; and the lookup of each of the
    three strings succeeds. *)
Theorem Provision_unknown_factor (w : World M H) :
  Factor (config (breaker w)) <> "latency"%string ->
  Factor (config (breaker w)) <> "error_ratio"%string ->
  Factor (config (breaker w)) <> "status_ratio"%string ->
  (exists err w',
      run Provision w = Some (Some err, w') /\
      breaker w' = breaker w /\
      map snd (calls w w') = [load_Factor]) /\
  typeCB !! "latency"%string = Some factorLatency /\
  typeCB !! "error_ratio"%string = Some factorErrorRatio /\
  typeCB !! "status_ratio"%string = Some factorStatusCodeRatio.
Proof.
  intros N1 N2 N3. split; [| repeat split; reflexivity].
  destruct (Provision_cases w) as (r & w' & Hrun & _ & Hc).
  rewrite (typeCB_unknown _ N1 N2 N3) in Hc. destruct Hc as (-> & Hb & Hl).
  eauto.
Qed.

(** C8 (amended): [Provision] always returns.  If the factor string is
    recognised and the configured trip duration is zero, the trip
    duration is 5 seconds afterwards, whether or not the construction
    of the engine succeeds; if the trip duration is not zero, or the
    factor string is not recognised, [Provision] leaves it as it is. *)
Theorem Provision_trip_duration (w : World M H) :
  exists r w', run Provision w = Some (r, w') /\
    (is_Some (typeCB !! Factor (config (breaker w))) ->
     TripDuration (config (breaker w)) = 0 ->
     TripDuration (config (breaker w')) = 5 * Second) /\
    (TripDuration (config (breaker w)) <> 0 ->
     TripDuration (config (breaker w')) =
     TripDuration (config (breaker w))) /\
    (typeCB !! Factor (config (breaker w)) = None ->
     TripDuration (config (breaker w')) =
     TripDuration (config (breaker w))).
Proof.
  destruct (Provision_cases w) as (r & w' & Hrun & _ & Hc).
  exists r, w'. split; [exact Hrun |].
  pose proof (defaulted_TripDuration (breaker w)) as Hd.
  destruct (typeCB !! Factor (config (breaker w))) as [f |].
  - assert (Hb : TripDuration (config (breaker w')) =
                 TripDuration (config (defaulted (breaker w)))).
    { destruct NewRTMetrics; destruct Hc as (_ & -> & _); reflexivity. }
    rewrite Hb, Hd. repeat split.
    + intros _ ->. reflexivity.
    + intros Hn. destruct (Z.eqb_spec (TripDuration (config (breaker w))) 0);
        [contradiction | reflexivity].
    + discriminate.
  - destruct Hc as (_ & -> & _). repeat split.
    intros [? ?]. discriminate.
Qed.

(** C9: a [Provision] that returns nil leaves the tripped counter at 0,
    so that [OK()] answers true; the factor code is the one the table
    gives for the configured factor string; the engine is the one just
    constructed.  A [Provision] that calls the constructor of the
    engine and gets an error returns that error wrapped. *)
Theorem Provision_success (w : World M H) :
  exists r w', run Provision w = Some (r, w') /\
    (r = None ->
     tripped (breaker w') = 0 /\
     OK_now w' = Some true /\
     typeCB !! Factor (config (breaker w)) = Some (cbFactor (breaker w')) /\
     (exists mt, NewRTMetrics = Ok mt /\ metrics (breaker w') = Some mt /\
                 In (store_metrics mt) (map snd (calls w w')) /\
                 In memmetrics_NewRTMetrics (map snd (calls w w')))) /\
    (forall e,
        In memmetrics_NewRTMetrics (map snd (calls w w')) ->
        NewRTMetrics = Err e ->
        r = Some (String.append "cannot create new metrics: " e)).
Proof.
  destruct (Provision_cases w) as (r & w' & Hrun & _ & Hc).
  exists r, w'. split; [exact Hrun |].
  destruct (typeCB !! Factor (config (breaker w))) as [f |].
  - destruct NewRTMetrics as [mt | e0].
    + destruct Hc as (-> & Hb & Hl). split; [| intros; discriminate].
      intros _. rewrite Hb. cbn [set_tripped set_metrics set_cbFactor
        tripped cbFactor metrics]. repeat split.
      * unfold OK_now. destruct w' as [c' t' lg']. cbn in Hb. subst c'.
        reflexivity.
      * exists mt. repeat split; rewrite Hl; unfold provision_prefix;
          rewrite !in_app_iff; cbn [In]; auto 10.
    + destruct Hc as (-> & Hb & Hl). split; [discriminate |].
      intros e _ [= ->]. reflexivity.
  - destruct Hc as (-> & Hb & Hl). split; [discriminate |].
    intros e Hin _. rewrite Hl in Hin. cbn in Hin.
    destruct Hin as [Hin | []]. discriminate.
Qed.

(** C10: when the factor string is not recognised, [Provision] returns
    its error having executed the load of the factor string only: no
    field is written, the constructor of the engine is not called.
    When the factor string is recognised, the trip duration is zero and
    the construction of the engine fails, [Provision] returns the
    wrapped error with the trip duration already set to 5 seconds, so
    the breaker differs from the one it was called on, while
    [cbFactor], [metrics] and [tripped] are as before. *)
Theorem Provision_failure_paths (w : World M H) :
  exists r w', run Provision w = Some (r, w') /\
    (typeCB !! Factor (config (breaker w)) = None ->
     r = Some "type is not defined"%string /\
     breaker w' = breaker w /\
     map snd (calls w w') = [load_Factor]) /\
    (forall e,
        is_Some (typeCB !! Factor (config (breaker w))) ->
        NewRTMetrics = Err e ->
        TripDuration (config (breaker w)) = 0 ->
        r = Some (String.append "cannot create new metrics: " e) /\
        breaker w' = set_TripDuration (5 * Second) (breaker w) /\
        breaker w' <> breaker w /\
        cbFactor (breaker w') = cbFactor (breaker w) /\
        metrics (breaker w') = metrics (breaker w) /\
        tripped (breaker w') = tripped (breaker w) /\
        map snd (calls w w') =
          [load_Factor; load_TripDuration;
           store_TripDuration (5 * Second); memmetrics_NewRTMetrics]).
Proof.
  destruct (Provision_cases w) as (r & w' & Hrun & _ & Hc).
  exists r, w'. split; [exact Hrun |].
  destruct (typeCB !! Factor (config (breaker w))) as [f |].
  - split; [discriminate |]. intros e _ He Hz. rewrite He in Hc.
    destruct Hc as (-> & Hb & Hl). unfold defaulted, provision_prefix in *.
    rewrite Hz in *. cbn in Hb, Hl. rewrite Hb. repeat split; auto.
    intros Heq. apply (f_equal (fun c => TripDuration (config c))) in Heq.
    cbn in Heq. rewrite Hz in Heq. discriminate.
  - split; [intros _; exact Hc |]. intros e [? ?]. discriminate.
Qed.
End ProvisionProps.

(** ** Order of binary64 values *)
Section FloatOrder.
Lemma digits2_pos_bounds (m : positive) :
  2 ^ (Z.pos (digits2_pos m) - 1) <= Z.pos m < 2 ^ Z.pos (digits2_pos m).
Proof.
  induction m as [p IH | p IH |]; cbn [digits2_pos].
  - rewrite Pos2Z.inj_succ. replace (Z.succ (Z.pos (digits2_pos p)) - 1)
      with (Z.succ (Z.pos (digits2_pos p) - 1)) by lia.
    rewrite !Z.pow_succ_r by lia. lia.
  - rewrite Pos2Z.inj_succ. replace (Z.succ (Z.pos (digits2_pos p)) - 1)
      with (Z.succ (Z.pos (digits2_pos p) - 1)) by lia.
    rewrite !Z.pow_succ_r by lia. lia.
  - cbn. lia.
Qed.

Lemma bounded_exponent (m : positive) (e : Z) :
  bounded 53 1024 m e = true ->
  - 1074 <= e /\ Z.pos m < 2 ^ 53 /\ (- 1074 < e -> 2 ^ 52 <= Z.pos m).
Proof.
  unfold bounded, canonical_mantissa, fexp, emin.
  intros [Hc _]%andb_prop. apply Z.eqb_eq in Hc.
  pose proof (digits2_pos_bounds m) as [Hlo Hhi].
  set (d := Z.pos (digits2_pos m)) in *.
  assert (Hd : 0 < d) by (subst d; lia).
  change (3 - 1024 - 53) with (- 1074) in Hc.
  split; [lia |]. split.
  - assert (d <= 53) by lia.
    apply Z.lt_le_trans with (2 ^ d); [exact Hhi |].
    apply Z.pow_le_mono_r; lia.
  - intros He. assert (d = 53) by lia.
    replace 52 with (d - 1) by lia. exact Hlo.
Qed.

Lemma bounded_scaled_lt (m1 m2 : positive) (e1 e2 : Z) :
  bounded 53 1024 m1 e1 = true -> bounded 53 1024 m2 e2 = true ->
  e1 < e2 ->
  Z.pos m1 * 2 ^ (e1 + 1074) < Z.pos m2 * 2 ^ (e2 + 1074).
Proof.
  intros H1 H2 Hlt.
  destruct (bounded_exponent _ _ H1) as (He1 & Hm1 & _).
  destruct (bounded_exponent _ _ H2) as (He2 & _ & Hm2).
  specialize (Hm2 ltac:(lia)).
  assert (Hp : 0 < 2 ^ (e1 + 1074)) by (apply Z.pow_pos_nonneg; lia).
  replace (e2 + 1074) with ((e2 - e1 - 1) + 1 + (e1 + 1074)) by lia.
  set (k := e1 + 1074) in *. set (j := e2 - e1 - 1).
  assert (Hj : 0 <= j) by (subst j; lia).
  assert (Hk : 0 <= k) by (subst k; lia).
  rewrite !Z.pow_add_r by lia.
  assert (Hq : 1 <= 2 ^ j).
  { change 1 with (2 ^ 0). apply Z.pow_le_mono_r; lia. }
  change (2 ^ 1) with 2. change (2 ^ 53) with (2 * 2 ^ 52) in Hm1.
  set (P := 2 ^ k) in *. set (J := 2 ^ j) in *. set (B := 2 ^ 52) in *.
  assert (Z.pos m1 * P < 2 * B * P) by nia.
  assert (2 * B * P <= 2 * Z.pos m2 * P) by nia.
  assert (2 * Z.pos m2 * P <= Z.pos m2 * (J * 2 * P)) by nia.
  lia.
Qed.

Lemma float64_gt_value (a b : float64) (x y : Z) :
  valid_binary 53 1024 a = true -> valid_binary 53 1024 b = true ->
  float64_ulps a = Some x -> float64_ulps b = Some y ->
  (float64_gt a b = true <-> x > y).
Proof.
  unfold float64_gt, SFltb.
  destruct a as [sa | sa | | sa ma ea], b as [sb | sb | | sb mb eb];
    cbn [valid_binary float64_ulps SFcompare]; intros Va Vb; try discriminate.
  - intros [= <-] [= <-]. split; [discriminate | lia].
  - intros [= <-] [= <-].
    assert (0 < Z.pos mb * 2 ^ (eb + 1074)).
    { destruct (bounded_exponent _ _ Vb) as (? & _).
      apply Z.mul_pos_pos; [lia | apply Z.pow_pos_nonneg; lia]. }
    destruct sb; split; intros; try discriminate; try reflexivity; lia.
  - intros [= <-] [= <-].
    assert (0 < Z.pos ma * 2 ^ (ea + 1074)).
    { destruct (bounded_exponent _ _ Va) as (? & _).
      apply Z.mul_pos_pos; [lia | apply Z.pow_pos_nonneg; lia]. }
    destruct sa; split; intros; try discriminate; try reflexivity; lia.
  - intros [= <-] [= <-].
    assert (Ha : 0 < Z.pos ma * 2 ^ (ea + 1074)).
    { destruct (bounded_exponent _ _ Va) as (? & _).
      apply Z.mul_pos_pos; [lia | apply Z.pow_pos_nonneg; lia]. }
    assert (Hb : 0 < Z.pos mb * 2 ^ (eb + 1074)).
    { destruct (bounded_exponent _ _ Vb) as (? & _).
      apply Z.mul_pos_pos; [lia | apply Z.pow_pos_nonneg; lia]. }
    change (Pos.compare_cont Eq mb ma) with (Pos.compare mb ma).
    assert (Hlt : eb < ea ->
      Z.pos mb * 2 ^ (eb + 1074) < Z.pos ma * 2 ^ (ea + 1074))
      by (apply bounded_scaled_lt; assumption).
    assert (Hgt : ea < eb ->
      Z.pos ma * 2 ^ (ea + 1074) < Z.pos mb * 2 ^ (eb + 1074))
      by (apply bounded_scaled_lt; assumption).
    assert (Heq : ea = eb -> 0 < 2 ^ (ea + 1074) /\ 0 < 2 ^ (eb + 1074)).
    { intros ->. destruct (bounded_exponent _ _ Vb) as (? & _).
      split; apply Z.pow_pos_nonneg; lia. }
    destruct sa, sb;
      destruct (Z.compare_spec eb ea) as [E | E | E];
      try destruct (Pos.compare_spec mb ma) as [Em | Em | Em];
      cbn [CompOpp]; split; intros Hx;
      try discriminate Hx; try reflexivity; try lia;
      try (subst; nia);
      try (destruct (Heq (eq_sym E)); subst; nia).
Qed.

(** The integer part of a binary64 value, from its value in units of
    2^-1074: rounded toward zero. *)
Lemma float64_trunc_ulps (f : float64) (x : Z) :
  valid_binary 53 1024 f = true -> float64_ulps f = Some x ->
  float64_trunc f = Some (Z.quot x (2 ^ 1074)).
Proof.
  destruct f as [s | s | | s m e]; cbn [valid_binary float64_ulps
    float64_trunc]; intros V; try discriminate.
  - intros [= <-]. reflexivity.
  - intros [= <-]. destruct (bounded_exponent _ _ V) as (He & _).
    assert (Hq : Z.quot (Z.pos m * 2 ^ (e + 1074)) (2 ^ 1074)
                 = if 0 <=? e then Z.pos m * 2 ^ e
                   else Z.pos m / 2 ^ (- e)).
    { assert (0 <= Z.pos m * 2 ^ (e + 1074)).
      { apply Z.mul_nonneg_nonneg; [lia | apply Z.pow_nonneg; lia]. }
      rewrite Z.quot_div_nonneg by (try apply Z.pow_pos_nonneg; lia).
      destruct (Z.leb_spec 0 e).
      - rewrite Z.pow_add_r by lia. rewrite Z.mul_assoc.
        apply Z.div_mul. apply Z.pow_nonzero; lia.
      - replace (2 ^ 1074) with (2 ^ (- e) * 2 ^ (e + 1074))
          by (rewrite <- Z.pow_add_r by lia; f_equal; lia).
        apply Z.div_mul_cancel_r; apply Z.pow_nonzero; lia. }
    destruct s; [| rewrite Hq; reflexivity].
    rewrite Z.quot_opp_l by (apply Z.pow_nonzero; lia).
    rewrite Hq. reflexivity.
Qed.

(** An integer against a value given in units [P]: above the value
    rounded toward zero. *)
Lemma Zgt_quot (n x P : Z) :
  0 < P ->
  (0 <= x -> (n > Z.quot x P <-> n * P > x)) /\
  (x <= 0 -> (n > Z.quot x P <-> (n - 1) * P >= x)).
Proof.
  intros HP. split; intros Hx.
  - rewrite Z.quot_div_nonneg by lia.
    pose proof (Z.div_mod x P ltac:(lia)) as Hd.
    pose proof (Z.mod_pos_bound x P HP) as Hm.
    set (q := x / P) in *. set (r := x mod P) in *. split; intros; nia.
  - replace x with (- (- x)) at 1 by lia.
    rewrite Z.quot_opp_l by lia. rewrite Z.quot_div_nonneg by lia.
    pose proof (Z.div_mod (- x) P ltac:(lia)) as Hd.
    pose proof (Z.mod_pos_bound (- x) P HP) as Hm.
    set (q := (- x) / P) in *. set (r := (- x) mod P) in *.
    split; intros; nia.
Qed.
End FloatOrder.

(** ** checkAndSet *)
Ltac lhs_sym :=
  match goal with
  | |- ?L = ?R =>
      let L' := eval cbn [run wake perform with_metrics commit sleep_until
                          bind breaker now log tripped cbFactor metrics
                          config Threshold Factor TripDuration
                          set_tripped set_cbFactor set_metrics
                          set_TripDuration checkAndSet RecordMetric OK
                          Provision] in L in
      change (L' = R)
  end.
Ltac side :=
  repeat split; intros;
  try solve [exfalso;
             unfold factorErrorRatio, factorLatency, factorStatusCodeRatio
               in *; lia];
  try match goal with
      | E : ?x = _ |- context [match ?x with _ => _ end] => rewrite E
      end;
  repeat split; reflexivity.
Ltac in_log :=
  split;
  [ intros Hin;
    repeat match goal with
           | Hx : _ \/ _ |- _ => destruct Hx as [Hx | Hx]
           end;
    try contradiction; try discriminate;
    injection Hin as <-; subst; repeat split; reflexivity
  | intros Heq;
    repeat match goal with
           | Hx : _ /\ _ |- _ => destruct Hx as [? Hx]
           end;
    subst; auto 10 ].
Ltac world_eq :=
  unfold queried, commit; cbn [log now breaker map];
  rewrite <- ?app_assoc; reflexivity.
Ltac to_queried :=
  match goal with
  | |- run _ ?w1 = ?R =>
      match R with
      | context [queried ?qs ?w0] =>
          replace w1 with (queried qs w0) by world_eq
      end
  | |- Some (tt, ?w1) = Some (tt, queried ?qs ?w0) =>
      replace w1 with (queried qs w0) by world_eq
  end.

Section CheckAndSetProps.
Context {M H : Type} `{RT : RTMetrics M H} `{AR : Arch}.

Lemma wrap_int32_small (z : Z) :
  - 2 ^ 31 <= z < 2 ^ 31 -> wrap_int32 z = z.
Proof.
  intros Hz. unfold wrap_int32. rewrite Z.mod_small by lia. lia.
Qed.


Lemma waiting_eq (t : Timer) :
  @waiting M H t = Do (timer_recv t) (fun _ => after_wait).
Proof. reflexivity. Qed.

Opaque waiting.

Lemma run_trip_episode (w : World M H) (m : M) :
  metrics (breaker w) = Some m ->
  let d := TripDuration (config (breaker w)) in
  run trip_episode w =
  Some (tt,
        {| breaker := after_episode m (breaker w);
           now := Z.max (now w) (now w + d);
           log := log w ++ episode_log (now w) d |}).
Proof.
  intros Hm d. subst d. world w.
  unfold after_episode, trip_episode, after_reset, after_incr, after_load.
  sym. rewrite waiting_eq, run_timer_recv. unfold after_wait. sym.
  unfold episode_log, commit, sleep_until. sym. cbn [when].
  rewrite <- !app_assoc. reflexivity.
Qed.

Lemma run_checkAndSet (w : World M H) (m : M) :
  metrics (breaker w) = Some m ->
  exists (qs : list (op M H)) (isTripped : option bool),
    forallb is_query qs = true /\
    run checkAndSet w =
      match isTripped with
      | Some true => run trip_episode (queried qs w)
      | _ => Some (tt, queried qs w)
      end /\
    switch_result (breaker w) m qs isTripped.
Proof.
  intros Hm. unfold switch_result. world w.
  destruct (Z.eqb_spec cbFactor0 factorErrorRatio) as [-> | N1];
    [| destruct (Z.eqb_spec cbFactor0 factorLatency) as [-> | N2];
       [| destruct (Z.eqb_spec cbFactor0 factorStatusCodeRatio)
            as [-> | N3]]].
  - exists [load_cbFactor; metrics_NetworkErrorRatio; load_Threshold],
      (Some (float64_gt (NetworkErrorRatio m) Threshold0)).
    split; [reflexivity |]. split; [| side].
    lhs_sym. to_queried. destruct (float64_gt _ _); reflexivity.
  - destruct (LatencyHistogram m) as [hist | e] eqn:He.
    + exists [load_cbFactor; metrics_LatencyHistogram; load_Threshold;
              hist_LatencyAtQuantile hist Threshold0; load_Threshold],
        (Some (Z.quot (LatencyAtQuantile hist Threshold0) 1000000
               >? int64_of_float64 Threshold0)).
      split; [reflexivity |]. split; [| side].
      lhs_sym. rewrite He. lhs_sym. 
      to_queried.
      unfold Nanoseconds, Millisecond, Microsecond, Nanosecond.
      destruct (_ >? _); reflexivity.
    + exists [load_cbFactor; metrics_LatencyHistogram], None.
      split; [reflexivity |]. split; [| side].
      lhs_sym. rewrite He. lhs_sym. to_queried. reflexivity.
  - exists [load_cbFactor; metrics_ResponseCodeRatio 500 600 0 600;
            load_Threshold],
      (Some (float64_gt (ResponseCodeRatio 500 600 0 600 m) Threshold0)).
    split; [reflexivity |]. split; [| side].
    lhs_sym. to_queried. destruct (float64_gt _ _); reflexivity.
  - exists [load_cbFactor], (Some false).
    split; [reflexivity |]. split; [| side].
    lhs_sym. to_queried. reflexivity.
Qed.
Lemma is_query_not_trip (o : op M H) :
  is_query o = true -> is_trip o = false.
Proof. destruct o; cbn; congruence. Qed.

Lemma trip_occurs_queries (t : Z) (qs : list (op M H)) :
  forallb is_query qs = true -> trip_occurs (map (pair t) qs) = false.
Proof.
  induction qs as [| o qs IH]; cbn [forallb map]; [reflexivity |].
  intros [Ho Hqs]%andb_prop. unfold trip_occurs in *. cbn [existsb snd].
  rewrite (is_query_not_trip _ Ho). apply IH, Hqs.
Qed.

Lemma trip_occurs_app (l1 l2 : list (Z * op M H)) :
  trip_occurs (l1 ++ l2) = trip_occurs l1 || trip_occurs l2.
Proof. apply existsb_app. Qed.

(** What a call of [checkAndSet] does, in terms of the switch. *)
Lemma checkAndSet_outcome (w : World M H) (m : M) :
  metrics (breaker w) = Some m ->
  let d := TripDuration (config (breaker w)) in
  exists qs isTripped w',
    run checkAndSet w = Some (tt, w') /\
    forallb is_query qs = true /\
    switch_result (breaker w) m qs isTripped /\
    trip_occurs (calls w w') = trips isTripped /\
    if trips isTripped then
      calls w w' = map (pair (now w)) qs ++ episode_log (now w) d /\
      breaker w' = after_episode m (breaker w) /\
      now w' = Z.max (now w) (now w + d)
    else
      calls w w' = map (pair (now w)) qs /\
      breaker w' = breaker w /\
      now w' = now w.
Proof.
  intros Hm d. destruct (run_checkAndSet w m Hm) as (qs & b & Hq & Hrun & Hsw).
  exists qs, b.
  assert (Hquiet : exists w', run checkAndSet w = Some (tt, w') /\
    if trips b then
      log w' = log w ++ map (pair (now w)) qs ++ episode_log (now w) d /\
      breaker w' = after_episode m (breaker w) /\
      now w' = Z.max (now w) (now w + d)
    else
      log w' = log w ++ map (pair (now w)) qs /\
      breaker w' = breaker w /\ now w' = now w).
  { destruct b as [[|] |]; cbn [trips].
    - rewrite (run_trip_episode (queried qs w) m Hm) in Hrun.
      eexists; split; [exact Hrun |]. cbn [log breaker now queried].
      rewrite <- app_assoc. auto.
    - eexists; split; [exact Hrun |]. cbn. auto.
    - eexists; split; [exact Hrun |]. cbn. auto. }
  destruct Hquiet as (w' & Hrun' & Hw'). exists w'.
  split; [exact Hrun' |]. split; [exact Hq |]. split; [exact Hsw |].
  destruct (trips b); destruct Hw' as (Hl & Hb & Hn);
    rewrite (calls_app _ _ _ Hl).
  - split; [| auto]. rewrite trip_occurs_app, trip_occurs_queries by exact Hq.
    reflexivity.
  - split; [| auto]. apply trip_occurs_queries, Hq.
Qed.
Lemma run_RecordMetric (w : World M H) (m : M) (statusCode : Z)
    (latency : Duration) :
  metrics (breaker w) = Some m ->
  run (RecordMetric statusCode latency) w =
  run checkAndSet
    (commit (metrics_Record statusCode latency)
       (set_metrics (RecordRT statusCode latency m) (breaker w)) w).
Proof.
  intros Hm. world w. reflexivity.
Qed.

Lemma SFcompare_antisym (a b : float64) :
  SFcompare b a = option_map CompOpp (SFcompare a b).
Proof.
  destruct a as [sa | sa | | sa ma ea], b as [sb | sb | | sb mb eb];
    cbn; try reflexivity; try (destruct sa; reflexivity);
    try (destruct sb; reflexivity); try (destruct sa, sb; reflexivity).
  change (Pos.compare_cont Eq mb ma) with (Pos.compare mb ma).
  change (Pos.compare_cont Eq ma mb) with (Pos.compare ma mb).
  rewrite (Z.compare_antisym ea eb), (Pos.compare_antisym ma mb).
  destruct sa, sb; try reflexivity;
    destruct (ea ?= eb); cbn; try reflexivity;
    destruct (ma ?= mb)%positive; reflexivity.
Qed.

Lemma SFcompare_refl (a : float64) :
  SFcompare a a = Some Eq \/ SFcompare a a = None.
Proof.
  destruct a as [sa | sa | | sa ma ea]; cbn; auto.
  - destruct sa; auto.
  - change (Pos.compare_cont Eq ma ma) with (Pos.compare ma ma).
    rewrite Z.compare_refl, Pos.compare_refl. destruct sa; auto.
Qed.

Lemma float64_gt_equal (a b : float64) :
  SFeqb a b = true \/ a = b -> float64_gt a b = false.
Proof.
  unfold float64_gt, SFltb, SFeqb. intros [Heq | ->].
  - rewrite SFcompare_antisym.
    destruct (SFcompare a b) as [[| |] |]; cbn; congruence.
  - destruct (SFcompare_refl b) as [-> | ->]; reflexivity.
Qed.

(** The conversion [int64(f)] of a value within the range of int64
    rounds it toward zero. *)
Lemma int64_of_float64_ulps (f : float64) (x : Z) :
  valid_binary 53 1024 f = true -> float64_ulps f = Some x ->
  - 2 ^ 63 * 2 ^ 1074 <= x < 2 ^ 63 * 2 ^ 1074 ->
  int64_of_float64 f = Z.quot x (2 ^ 1074).
Proof.
  intros V Hx Hr. unfold int64_of_float64.
  rewrite (float64_trunc_ulps f x V Hx).
  assert (HP : 0 < 2 ^ 1074) by (apply Z.pow_pos_nonneg; lia).
  set (P := 2 ^ 1074) in *.
  assert (Hq : min_int64 <= Z.quot x P <= max_int64).
  { unfold min_int64, max_int64. set (B := 2 ^ 63) in *.
    destruct (Z.le_ge_cases 0 x) as [Hpos | Hneg].
    - rewrite Z.quot_div_nonneg by lia.
      pose proof (Z.div_pos x P Hpos HP).
      assert (x / P < B) by (apply Z.div_lt_upper_bound; lia). lia.
    - replace x with (- (- x)) by lia.
      rewrite Z.quot_opp_l by lia. rewrite Z.quot_div_nonneg by lia.
      pose proof (Z.div_pos (- x) P ltac:(lia) HP).
      assert (- x / P <= B) by (apply Z.div_le_upper_bound; lia). lia. }
  destruct (Z.leb_spec min_int64 (Z.quot x P)); [| lia].
  destruct (Z.leb_spec (Z.quot x P) max_int64); [| lia].
  reflexivity.
Qed.

(** C1 (amended): under the latency policy, with a histogram query that
    succeeds, [checkAndSet] asks the histogram for the latency at one
    quantile, which is the configured threshold itself; and with [L] the
    latency it gets, not negative, a trip occurs if and only if the
    number of whole milliseconds in [L] is greater than [int64] of the
    threshold.  For a threshold of value at least 0 and less than 2^63
    that is: the number of whole milliseconds is greater than the
    threshold.  For a threshold of value at most 0 and at least -2^63 it
    is: the number of whole milliseconds, less one, is at least the
    threshold.  Values are in units of 2^-1074. *)
Theorem latency_policy_trip (w : World M H) (m : M) (hist : H) :
  cbFactor (breaker w) = factorLatency ->
  metrics (breaker w) = Some m ->
  LatencyHistogram m = Ok hist ->
  let th := Threshold (config (breaker w)) in
  let L := LatencyAtQuantile hist th in
  0 <= L ->
  exists w', run checkAndSet w = Some (tt, w') /\
    (forall t h q,
        In (t, hist_LatencyAtQuantile h q) (calls w w') <->
        t = now w /\ h = hist /\ q = th) /\
    (trip_occurs (calls w w') = true <->
     floor_ms L > int64_of_float64 th) /\
    (forall x,
        valid_binary 53 1024 th = true -> float64_ulps th = Some x ->
        (0 <= x < 2 ^ 63 * 2 ^ 1074 ->
         (trip_occurs (calls w w') = true <->
          floor_ms L * 2 ^ 1074 > x)) /\
        (- 2 ^ 63 * 2 ^ 1074 <= x <= 0 ->
         (trip_occurs (calls w w') = true <->
          (floor_ms L - 1) * 2 ^ 1074 >= x))).
Proof.
  intros Hf Hm Hh th L HL.
  destruct (checkAndSet_outcome w m Hm)
    as (qs & b & w' & Hrun & _ & Hsw & Htrip & Hout).
  destruct Hsw as (_ & Hlat & _). specialize (Hlat Hf). rewrite Hh in Hlat.
  destruct Hlat as [-> ->]. exists w'. split; [exact Hrun |].
  assert (Hiff : trip_occurs (calls w w') = true <->
                 floor_ms L > int64_of_float64 th).
  { rewrite Htrip. cbn [trips]. fold th L. unfold floor_ms.
    change Millisecond with 1000000.
    rewrite Z.quot_div_nonneg by lia.
    destruct (Z.gtb_spec (L / 1000000) (int64_of_float64 th));
      split; intros; try lia; try discriminate; reflexivity. }
  split; [| split; [exact Hiff |]].
  - intros t h q. fold th in Hout. cbn [trips] in Hout.
    destruct (_ >? _); destruct Hout as (-> & _);
      unfold episode_log; cbn [map app In]; in_log.
  - intros x V Hx.
    assert (HP : 0 < 2 ^ 1074) by (apply Z.pow_pos_nonneg; lia).
    destruct (Zgt_quot (floor_ms L) x (2 ^ 1074) HP) as [Hpos Hneg].
    split; intros Hr; rewrite Hiff,
      (int64_of_float64_ulps th x V Hx) by lia;
      [apply Hpos | apply Hneg]; lia.
Qed.

(** The same for a latency of any sign: the division of the source
    rounds toward zero. *)
Lemma latency_trip_truncating (w : World M H) (m : M) (hist : H) :
  cbFactor (breaker w) = factorLatency ->
  metrics (breaker w) = Some m ->
  LatencyHistogram m = Ok hist ->
  let th := Threshold (config (breaker w)) in
  let L := LatencyAtQuantile hist th in
  exists w', run checkAndSet w = Some (tt, w') /\
    (trip_occurs (calls w w') = true <->
     Z.quot L 1000000 > int64_of_float64 th).
Proof.
  intros Hf Hm Hh th L.
  destruct (checkAndSet_outcome w m Hm)
    as (qs & b & w' & Hrun & _ & Hsw & Htrip & Hout).
  destruct Hsw as (_ & Hlat & _). specialize (Hlat Hf). rewrite Hh in Hlat.
  destruct Hlat as [-> ->]. exists w'. split; [exact Hrun |].
  rewrite Htrip. cbn [trips]. fold th L.
  destruct (Z.gtb_spec (Z.quot L 1000000) (int64_of_float64 th));
    split; intros; try lia; try discriminate; reflexivity.
Qed.

(** C2: under the error-ratio policy [checkAndSet] trips if and only if
    the network error ratio of the engine is greater than the
    threshold; under the status-ratio policy it asks the engine for the
    ratio of the codes in [500,600) over the codes in [0,600), and
    trips if and only if that ratio is greater than the threshold.
    Greater is Go's comparison of float64 values, which on finite
    values is the order of the numbers they stand for.  A ratio equal to
    the threshold does not trip. *)
Theorem ratio_policies_trip (w : World M H) (m : M) :
  metrics (breaker w) = Some m ->
  let th := Threshold (config (breaker w)) in
  let exceeds (ratio : float64) (trip : bool) : Prop :=
    (trip = true <-> float64_gt ratio th = true) /\
    (forall x y,
        valid_binary 53 1024 ratio = true ->
        valid_binary 53 1024 th = true ->
        float64_ulps ratio = Some x -> float64_ulps th = Some y ->
        (trip = true <-> x > y)) /\
    (SFeqb ratio th = true \/ ratio = th -> trip = false) in
  exists w', run checkAndSet w = Some (tt, w') /\
    (cbFactor (breaker w) = factorErrorRatio ->
     In (now w, metrics_NetworkErrorRatio) (calls w w') /\
     exceeds (NetworkErrorRatio m) (trip_occurs (calls w w'))) /\
    (cbFactor (breaker w) = factorStatusCodeRatio ->
     (forall t a b c d,
         In (t, metrics_ResponseCodeRatio a b c d) (calls w w') <->
         t = now w /\ a = 500 /\ b = 600 /\ c = 0 /\ d = 600) /\
     exceeds (ResponseCodeRatio 500 600 0 600 m)
       (trip_occurs (calls w w'))).
Proof.
  intros Hm th exceeds.
  destruct (checkAndSet_outcome w m Hm)
    as (qs & b & w' & Hrun & _ & Hsw & Htrip & Hout).
  exists w'. split; [exact Hrun |].
  destruct Hsw as (Herr & _ & Hst & _). fold th in Herr, Hst.
  assert (Hex : forall ratio,
    trip_occurs (calls w w') = float64_gt ratio th ->
    exceeds ratio (trip_occurs (calls w w'))).
  { intros ratio ->. split; [reflexivity |]. split.
    - intros x y Vr Vt Hx Hy. apply float64_gt_value; assumption.
    - apply float64_gt_equal. }
  split.
  - intros Hf. destruct (Herr Hf) as [-> ->]. cbn [trips] in *. split.
    + destruct (float64_gt _ th); destruct Hout as (-> & _);
        cbn [map app In]; auto.
    + apply Hex. rewrite Htrip. destruct (float64_gt _ th); reflexivity.
  - intros Hf. destruct (Hst Hf) as [-> ->]. cbn [trips] in *. split.
    + intros t a b c d.
      destruct (float64_gt _ th); destruct Hout as (-> & _);
        unfold episode_log; cbn [map app In]; in_log.
    + apply Hex. rewrite Htrip. destruct (float64_gt _ th); reflexivity.
Qed.

(** C5: under the latency policy, when the histogram query of the
    engine fails, [checkAndSet] returns having executed the load of the
    factor code and the query only: the breaker, with its tripped
    counter and its engine, is as before, no time has passed, and the
    call returns normally with nothing to report.  [RecordMetric] then
    leaves the breaker with the recorded sample as its only change. *)
Theorem latency_query_failure (w : World M H) (m : M) :
  cbFactor (breaker w) = factorLatency ->
  metrics (breaker w) = Some m ->
  (forall err, LatencyHistogram m = Err err ->
     exists w', run checkAndSet w = Some (tt, w') /\
       breaker w' = breaker w /\
       now w' = now w /\
       trip_occurs (calls w w') = false /\
       calls w w' =
         [(now w, load_cbFactor); (now w, metrics_LatencyHistogram)]) /\
  (forall statusCode latency err,
     LatencyHistogram (RecordRT statusCode latency m) = Err err ->
     exists w', run (RecordMetric statusCode latency) w = Some (tt, w') /\
       breaker w' =
         set_metrics (RecordRT statusCode latency m) (breaker w) /\
       tripped (breaker w') = tripped (breaker w) /\
       now w' = now w /\
       trip_occurs (calls w w') = false).
Proof.
  intros Hf Hm. split.
  - intros err He.
    destruct (checkAndSet_outcome w m Hm)
      as (qs & b & w' & Hrun & _ & Hsw & Htrip & Hout).
    destruct Hsw as (_ & Hlat & _). specialize (Hlat Hf).
    rewrite He in Hlat. destruct Hlat as [-> ->]. cbn [trips] in *.
    destruct Hout as (Hc & Hb & Hn). exists w'. rewrite Htrip, Hc. auto.
  - intros statusCode latency err He.
    rewrite (run_RecordMetric w m _ _ Hm).
    set (w1 := commit _ _ w).
    assert (Hm1 : metrics (breaker w1) =
                  Some (RecordRT statusCode latency m)) by reflexivity.
    destruct (checkAndSet_outcome w1 _ Hm1)
      as (qs & b & w' & Hrun & _ & Hsw & Htrip & Hout).
    destruct Hsw as (_ & Hlat & _). specialize (Hlat Hf).
    rewrite He in Hlat. destruct Hlat as [-> ->]. cbn [trips] in *.
    destruct Hout as (Hc & Hb & Hn). exists w'.
    split; [exact Hrun |]. rewrite Hb, Hn. repeat split.
    assert (Hl : log w' = log w1 ++ calls w1 w').
    { unfold calls. pose proof (run_log_grows _ _ _ _ Hrun) as [l Hl].
      rewrite Hl, drop_app_length. reflexivity. }
    unfold calls. rewrite Hl, Hc. subst w1. cbn [log commit].
    rewrite <- app_assoc, drop_app_length. reflexivity.
Qed.
End CheckAndSetProps.

(** ** OK *)
Section OKProps.
Context {M H : Type} `{RT : RTMetrics M H}.

Lemma run_OK (w : World M H) :
  run OK w =
  Some (tripped (breaker w) =? 0, commit atomic_LoadInt32 (breaker w) w).
Proof. reflexivity. Qed.

Lemma run_OK_times (n : nat) (w : World M H) :
  exists w',
    run (OK_times n) w = Some (repeat (tripped (breaker w) =? 0) n, w') /\
    breaker w' = breaker w /\ now w' = now w /\
    log w' = log w ++ repeat (now w, atomic_LoadInt32) n.
Proof.
  revert w. induction n as [| n IH]; intros w.
  - exists w. cbn. rewrite app_nil_r. auto.
  - cbn [OK_times]. rewrite run_bind, run_OK, run_bind.
    destruct (IH (commit atomic_LoadInt32 (breaker w) w))
      as (w' & Hrun & Hb & Hn & Hl).
    rewrite Hrun. cbn [run breaker commit now log] in *. exists w'.
    rewrite Hb, Hn, Hl, <- app_assoc. auto.
Qed.

(** C7: [OK()] answers true if and only if the tripped counter is 0;
    it executes one atomic load and leaves the breaker as it is; any
    number of calls in a row give the same answer and leave the breaker
    as it is.  It answers also on a breaker that was never
    provisioned. *)
Theorem OK_reads_tripped (w : World M H) (n : nat) :
  (OK_now w = Some true <-> tripped (breaker w) = 0) /\
  (OK_now w = Some false <-> tripped (breaker w) <> 0) /\
  exists w',
    run (OK_times n) w = Some (repeat (tripped (breaker w) =? 0) n, w') /\
    breaker w' = breaker w /\
    calls w w' = repeat (now w, atomic_LoadInt32) n /\
    OK_now w' = OK_now w.
Proof.
  unfold OK_now. rewrite run_OK. cbn [option_map fst].
  split; [| split].
  - destruct (Z.eqb_spec (tripped (breaker w)) 0); split; congruence.
  - destruct (Z.eqb_spec (tripped (breaker w)) 0); split; congruence.
  - destruct (run_OK_times n w) as (w' & Hrun & Hb & Hn & Hl).
    exists w'. rewrite run_OK, Hb, (calls_app _ _ _ Hl). auto.
Qed.
End OKProps.

Ltac step_point Hex Hlog :=
  cbn [step perform breaker now log after_reset after_incr after_load
       after_wait] in Hex;
  injection Hex as <- <-; eexists; cbn [breaker now log commit];
  split; [rewrite Hlog, <- !app_assoc; reflexivity |];
  split; [| lia]; cbn [app].

(** ** Executions of [checkAndSet] under any schedule *)
Section SmallStep.
Context {M H : Type} `{RT : RTMetrics M H} `{AR : Arch}.

Lemma quiet_checkAndSet : quiet (@checkAndSet M H AR).
Proof.
  assert (Htail : forall b : bool,
    quiet (match Some b with
           | Some true => @trip_episode M H
           | _ => Ret tt
           end)).
  { intros [|]; constructor. }
  unfold checkAndSet. cbn [bind].
  apply quiet_do; [reflexivity | intros f].
  destruct (f =? factorErrorRatio).
  { cbn [bind]. repeat (apply quiet_do; [reflexivity | intros ?]).
    apply Htail. }
  destruct (f =? factorLatency).
  { cbn [bind]. apply quiet_do; [reflexivity | intros [hist | e]].
    - cbn [bind]. repeat (apply quiet_do; [reflexivity | intros ?]).
      apply Htail.
    - constructor. }
  destruct (f =? factorStatusCodeRatio).
  { cbn [bind]. repeat (apply quiet_do; [reflexivity | intros ?]).
    apply Htail. }
  apply (Htail false).
Qed.

Lemma perform_query (o : op M H) (t : Z) (c : Simple M) (m : M) :
  is_query o = true -> metrics c = Some m ->
  exists r, perform o t c = Done r c.
Proof.
  intros Hq Hm. destruct o; try discriminate Hq; cbn [perform];
    unfold with_metrics; rewrite ?Hm; eauto.
Qed.

Lemma queries_only_snoc (l : list (Z * op M H)) t o :
  queries_only l -> is_query o = true -> queries_only (l ++ [(t, o)]).
Proof.
  intros Hl Ho. apply Forall_app. split; [exact Hl |].
  constructor; [exact Ho | constructor].
Qed.

Lemma at_point_step (c0 : Simple M) (m0 : M) p (w : World M H) l lab p' w'
    (lg0 : list (Z * op M H)) :
  metrics c0 = Some m0 ->
  at_point c0 m0 p (breaker w) (now w) l ->
  log w = lg0 ++ l ->
  exec1 lab (p, w) = Some (p', w') ->
  exists l', log w' = lg0 ++ l' /\
             at_point c0 m0 p' (breaker w') (now w') l' /\
             now w <= now w'.
Proof.
  intros Hm0 Hat Hlog Hex. destruct w as [c t lg]. cbn [breaker now log] in *.
  destruct lab as [dt |]; cbn [exec1 fst snd tick] in Hex.
  - injection Hex as <- <-. exists l. unfold tick. cbn [breaker now log].
    split; [exact Hlog |]. split; [| lia].
    destruct Hat; econstructor; eauto; lia.
  - destruct Hat.
    + (* in the switch *)
      destruct H0 as [| | o k Ho Hk].
      * discriminate Hex.
      * cbn in Hex. unfold with_metrics in Hex. rewrite Hm0 in Hex.
        injection Hex as <- <-. eexists. cbn [breaker now log commit].
        split; [rewrite Hlog, <- app_assoc; reflexivity |].
        split; [| lia]. apply pt_reset; [assumption | lia].
      * cbn [step breaker now] in Hex.
        destruct (perform_query o t c0 m0 Ho Hm0) as [r Hr].
        rewrite Hr in Hex. injection Hex as <- <-.
        eexists. cbn [breaker now log commit].
        split; [rewrite Hlog, <- app_assoc; reflexivity |].
        split; [| lia]. apply pt_switch; [apply Hk |].
        apply queries_only_snoc; assumption.
    + step_point Hex Hlog. eapply pt_incr; eauto; lia.
    + step_point Hex Hlog. eapply pt_load; eauto; lia.
    + step_point Hex Hlog. eapply pt_waiting; eauto; lia.
    + rewrite waiting_eq in Hex. cbn [step perform when now breaker] in Hex.
      destruct (Z.leb_spec (t4 + TripDuration (config c0)) t);
        [| discriminate Hex].
      step_point Hex Hlog. eapply pt_woken; eauto; lia.
    + step_point Hex Hlog. eapply pt_done; eauto; lia.
    + discriminate Hex.
Qed.

Lemma exec_at_point (sched : list label) (w0 : World M H) (m0 : M) :
  metrics (breaker w0) = Some m0 ->
  forall p w l,
    at_point (breaker w0) m0 p (breaker w) (now w) l ->
    log w = log w0 ++ l ->
    forall p' w',
      exec sched (p, w) = Some (p', w') ->
      at_point (breaker w0) m0 p' (breaker w') (now w') (calls w0 w') /\
      now w <= now w'.
Proof.
  intros Hm0. induction sched as [| lab sched IH]; intros p w l Hat Hlog p' w'.
  - cbn [exec]. intros [= <- <-]. rewrite (calls_app _ _ _ Hlog).
    split; [exact Hat | lia].
  - cbn [exec]. destruct (exec1 lab (p, w)) as [[p1 w1] |] eqn:Hex;
      [| discriminate].
    destruct (at_point_step _ _ _ _ _ _ _ _ _ Hm0 Hat Hlog Hex)
      as (l1 & Hlog1 & Hat1 & Hle).
    intros Hrest. destruct (IH _ _ _ Hat1 Hlog1 _ _ Hrest) as [Hat' Hle'].
    split; [exact Hat' | lia].
Qed.

(** Every state that a call of [checkAndSet] reaches. *)
Lemma checkAndSet_reaches (sched : list label) (w0 : World M H) (m0 : M)
    p' w' :
  metrics (breaker w0) = Some m0 ->
  exec sched (checkAndSet, w0) = Some (p', w') ->
  at_point (breaker w0) m0 p' (breaker w') (now w') (calls w0 w') /\
  now w0 <= now w'.
Proof.
  intros Hm0. apply (exec_at_point sched w0 m0 Hm0 _ _ []).
  - apply pt_switch; [apply quiet_checkAndSet | constructor].
  - symmetry. apply app_nil_r.
Qed.

(** The states in which the call has returned. *)
Lemma at_point_ret (c0 : Simple M) (m0 : M) (c : Simple M) (t : Z)
    (l : list (Z * op M H)) :
  at_point c0 m0 (Ret tt) c t l ->
  (c = c0 /\ queries_only l) \/
  (exists ql t1 t2 t3 t4 t5 t6,
      l = ql ++ [(t1, metrics_Reset); (t2, atomic_AddInt32 1);
                 (t3, load_TripDuration);
                 (t4, time_NewTimer (TripDuration (config c0)));
                 (t5, timer_recv
                        {| when := t4 + TripDuration (config c0) |});
                 (t6, atomic_AddInt32 (-1))] /\
      queries_only ql /\ c = after_episode m0 c0 /\
      t2 <= t4 /\ t4 + TripDuration (config c0) <= t5 /\ t5 <= t6 /\
      t6 <= t).
Proof.
  intros Hat. remember (Ret tt) as p eqn:Hp.
  destruct Hat; try discriminate Hp.
  - left. auto.
  - right. exists ql, t1, t2, t3, t4, t5, t6. auto 10.
Qed.

(** The switch of [checkAndSet] decides what [threshold_exceeded]
    says. *)
Lemma decides_checkAndSet (c : Simple M) (m : M) :
  metrics c = Some m ->
  decides c (threshold_exceeded c m) (@checkAndSet M H AR).
Proof.
  intros Hm.
  assert (Htail : forall b : bool,
    decides c b (match Some b with
                 | Some true => @trip_episode M H
                 | _ => Ret tt
                 end)).
  { intros [|]; cbn; auto. }
  assert (Hq : forall (o : op M H) (r : res o) (k : res o -> prog M H unit)
                      (b : bool),
    is_query o = true -> (forall t, perform o t c = Done r c) ->
    decides c b (k r) -> decides c b (Do o k)).
  { intros o r k b Ho Hr Hk. right. split; [exact Ho |]. exists r. auto. }
  unfold checkAndSet, threshold_exceeded. cbn [bind].
  eapply Hq; [reflexivity | intros t; reflexivity |]. cbn beta.
  destruct (cbFactor c =? factorErrorRatio).
  { cbn [bind].
    eapply Hq; [reflexivity
               | intros t; cbn [perform]; unfold with_metrics;
                 rewrite Hm; reflexivity |].
    eapply Hq; [reflexivity | intros t; reflexivity |]. apply Htail. }
  destruct (cbFactor c =? factorLatency).
  { cbn [bind].
    eapply Hq; [reflexivity
               | intros t; cbn [perform]; unfold with_metrics;
                 rewrite Hm; reflexivity |].
    destruct (LatencyHistogram m) as [hist | e]; cbn [bind].
    - eapply Hq; [reflexivity | intros t; reflexivity |].
      eapply Hq; [reflexivity | intros t; reflexivity |].
      eapply Hq; [reflexivity | intros t; reflexivity |]. apply Htail.
    - reflexivity. }
  destruct (cbFactor c =? factorStatusCodeRatio).
  { cbn [bind].
    eapply Hq; [reflexivity
               | intros t; cbn [perform]; unfold with_metrics;
                 rewrite Hm; reflexivity |].
    eapply Hq; [reflexivity | intros t; reflexivity |]. apply Htail. }
  apply (Htail false).
Qed.

Lemma exec_app {A : Type} (s1 s2 : list label) (s : prog M H A * World M H) :
  exec (s1 ++ s2) s =
  match exec s1 s with
  | Some s' => exec s2 s'
  | None => None
  end.
Proof.
  revert s. induction s1 as [| l s1 IH]; intros s; cbn [app exec];
    [reflexivity |].
  destruct (exec1 l s); [apply IH | reflexivity].
Qed.

(** Time does not go back, and every instruction is logged with the
    time of its execution. *)
Lemma exec_log_times {A : Type} (sched : list label) (p : prog M H A)
    (w : World M H) p' w' :
  exec sched (p, w) = Some (p', w') ->
  now w <= now w' /\
  exists l, log w' = log w ++ l /\
            forall t o, In (t, o) l -> now w <= t <= now w'.
Proof.
  revert p w. induction sched as [| lab sched IH]; intros p w; cbn [exec].
  - intros [= <- <-]. split; [lia |]. exists []. rewrite app_nil_r.
    split; [reflexivity | intros t o []].
  - destruct lab as [dt |]; cbn [exec1 fst snd].
    + intros Hex. destruct (IH _ _ Hex) as (Hle & l & Hl & Ht).
      cbn [tick now log] in *. split; [lia |]. exists l.
      split; [exact Hl |]. intros t o Hin. specialize (Ht t o Hin). lia.
    + destruct p as [a | o k]; cbn [step]; [discriminate |].
      destruct (perform o (now w) (breaker w)) as [r c | |];
        try discriminate.
      intros Hex. destruct (IH _ _ Hex) as (Hle & l & Hl & Ht).
      cbn [commit now log] in *. split; [lia |].
      exists ((now w, o) :: l). split.
      * rewrite Hl, <- app_assoc. reflexivity.
      * intros t o' [[= <- <-] | Hin]; [lia | apply (Ht _ _ Hin)].
Qed.

(** Under any schedule, a program that decides [b] on the breaker is
    still in its queries, with the breaker untouched, or it has started
    a trip, and then [b] is true. *)
Lemma decides_exec (c : Simple M) (b : bool) (sched : list label) :
  forall (p : prog M H unit) (w : World M H) p' w',
    decides c b p -> breaker w = c ->
    exec sched (p, w) = Some (p', w') ->
    (decides c b p' /\ breaker w' = c /\ queries_only (calls w w')) \/
    (b = true /\ exists t, In (t, metrics_Reset) (calls w w')).
Proof.
  induction sched as [| lab sched IH]; intros p w p' w' Hd Hc; cbn [exec].
  - intros [= <- <-]. left. rewrite calls_refl.
    split; [exact Hd |]. split; [exact Hc | constructor].
  - destruct lab as [dt |]; cbn [exec1 fst snd].
    + intros Hex. apply (IH _ (tick dt w) _ _ Hd Hc Hex).
    + destruct p as [a | o k]; cbn [step]; [discriminate |].
      cbn [decides] in Hd. rewrite Hc.
      destruct Hd as [(-> & -> & Hk) | (Ho & r & Hr & Hk)].
      * destruct (perform metrics_Reset (now w) c) as [r c1 | |];
          try discriminate.
        intros Hex. right. split; [reflexivity |].
        destruct (exec_log_times _ _ _ _ _ Hex) as (_ & l & Hl & _).
        cbn [commit log] in Hl. rewrite <- app_assoc in Hl.
        rewrite (calls_app _ _ _ Hl). exists (now w). left. reflexivity.
      * rewrite Hr. intros Hex.
        destruct (exec_log_times _ _ _ _ _ Hex) as (_ & l & Hl & _).
        cbn [commit log] in Hl. rewrite <- app_assoc in Hl.
        rewrite (calls_app _ _ _ Hl).
        assert (Hl2 : log w' = log (commit o c w) ++ l).
        { cbn [commit log]. rewrite Hl, <- app_assoc. reflexivity. }
        destruct (IH (k r) (commit o c w) p' w' Hk eq_refl Hex)
          as [(Hd' & Hc' & Hq') | (Hb & t & Hin)];
          rewrite (calls_app _ _ _ Hl2) in *.
        -- left. split; [exact Hd' |]. split; [exact Hc' |].
           constructor; [exact Ho | exact Hq'].
        -- right. split; [exact Hb |]. exists t. right. exact Hin.
Qed.

(** A program that decides to trip can be run up to the increment of
    the counter without time passing. *)
Lemma decides_trips (c : Simple M) (m : M) (p : prog M H unit) :
  metrics c = Some m -> decides c true p ->
  forall w, breaker w = c ->
    exists sched ql,
      exec sched (p, w) =
        Some (after_incr,
              {| breaker := c_open c m; now := now w;
                 log := log w ++ ql ++ [(now w, metrics_Reset);
                                        (now w, atomic_AddInt32 1)] |}) /\
      queries_only ql.
Proof.
  intros Hm. induction p as [a | o k IH]; cbn [decides]; [discriminate |].
  intros [(-> & _ & Hk) | (Ho & r & Hr & Hk)] w Hc.
  - exists [Step; Step], []. split; [| constructor].
    cbn [exec exec1 step fst snd perform]. unfold with_metrics.
    rewrite Hc, Hm, Hk. cbn [after_reset step exec exec1 fst snd perform
      commit breaker now log]. unfold c_open, c_reset, commit.
    cbn [breaker now log set_metrics set_tripped tripped app].
    rewrite <- app_assoc. reflexivity.
  - destruct (IH r Hk (commit o c w) eq_refl) as (sched & ql & Hex & Hq).
    exists (Step :: sched), ((now w, o) :: ql). split.
    + cbn [exec exec1 step fst snd]. rewrite Hc, Hr, Hex.
      cbn [commit now log]. rewrite <- app_assoc. reflexivity.
    + constructor; [exact Ho | exact Hq].
Qed.
End SmallStep.

Ltac in_tail Hin :=
  rewrite in_app_iff in Hin; cbn [In] in Hin;
  repeat match type of Hin with
         | _ \/ _ => destruct Hin as [Hin | Hin]
         end;
  try contradiction; try discriminate Hin.

(** ** Trips: order of the steps, and recovery *)
Section TripProps.
Context {M H : Type} `{RT : RTMetrics M H} `{AR : Arch}.

Lemma OK_now_eq (w : World M H) :
  OK_now w = Some (tripped (breaker w) =? 0).
Proof. reflexivity. Qed.

Lemma queries_only_In (ql : list (Z * op M H)) t o :
  queries_only ql -> In (t, o) ql -> is_query o = true.
Proof.
  unfold queries_only. rewrite Forall_forall. intros Hq Hin.
  apply (Hq (t, o)). apply list_elem_of_In, Hin.
Qed.

Lemma queries_only_no_trip (ql : list (Z * op M H)) :
  queries_only ql -> trip_occurs ql = false.
Proof.
  induction 1 as [| e l He Hl IH]; [reflexivity |].
  unfold trip_occurs in *. cbn [existsb].
  rewrite (is_query_not_trip _ He). exact IH.
Qed.

Lemma perform_blocked (o : op M H) (t : Z) (c : Simple M) (u : Z) :
  perform o t c = Blocked u ->
  exists tm, o = timer_recv tm /\ when tm = u /\ t < u.
Proof.
  destruct o; cbn [perform]; unfold with_metrics;
    try discriminate; try (destruct (metrics c); discriminate).
  destruct (Z.leb_spec (when t0) t); [discriminate |].
  intros [= <-]. eauto.
Qed.

Ltac in_open Hin Hql Hz :=
  in_tail Hin;
  [ apply (queries_only_In _ _ _ Hql) in Hin; discriminate Hin
  | injection Hin as <-;
    cbn [c_open set_tripped tripped]; rewrite Hz;
    change (wrap_int32 (0 + 1) =? 0) with false;
    split; [reflexivity |]; split; [split; discriminate |]; discriminate ].

(** A sequential execution is one of the executions of the small-step
    semantics. *)
Lemma run_exec {A : Type} (p : prog M H A) (w : World M H) a w' :
  run p w = Some (a, w') ->
  exists sched, exec sched (p, w) = Some (Ret a, w').
Proof.
  revert w. induction p as [b | o k IH]; intros w; cbn [run].
  - intros [= -> ->]. exists []. reflexivity.
  - unfold wake. destruct (perform o (now w) (breaker w)) as [r c | t |] eqn:Hp.
    + rewrite Hp. intros Hrun. destruct (IH _ _ Hrun) as [sched Hs].
      exists (Step :: sched). cbn [exec exec1 step fst snd]. rewrite Hp.
      exact Hs.
    + destruct (perform_blocked _ _ _ _ Hp) as (tm & -> & <- & Hlt).
      cbn [perform sleep_until now breaker]. rewrite Z.leb_refl.
      intros Hrun. destruct (IH _ _ Hrun) as [sched Hs].
      exists (Tick (Z.to_N (when tm - now w)) :: Step :: sched).
      assert (Hw : tick (Z.to_N (when tm - now w)) w
                   = sleep_until (when tm) w).
      { unfold tick, sleep_until. f_equal. lia. }
      cbn [exec exec1 step fst snd]. rewrite Hw.
      cbn [perform sleep_until now breaker]. rewrite Z.leb_refl. exact Hs.
    + rewrite Hp. discriminate.
Qed.

(** A call of [checkAndSet] trips exactly when the selected case of the
    switch finds the threshold exceeded. *)
Lemma checkAndSet_trips_exceeded (w : World M H) (m : M) :
  metrics (breaker w) = Some m ->
  exists w', run checkAndSet w = Some (tt, w') /\
             trip_occurs (calls w w') = threshold_exceeded (breaker w) m.
Proof.
  intros Hm.
  destruct (checkAndSet_outcome w m Hm)
    as (qs & b & w' & Hrun & _ & Hsw & Htrip & _).
  exists w'. split; [exact Hrun |]. rewrite Htrip.
  destruct Hsw as (Herr & Hlat & Hst & Hnone). unfold threshold_exceeded.
  destruct (Z.eqb_spec (cbFactor (breaker w)) factorErrorRatio) as [E1 | N1].
  { destruct (Herr E1) as [_ ->]. cbn [trips].
    destruct (float64_gt _ _); reflexivity. }
  destruct (Z.eqb_spec (cbFactor (breaker w)) factorLatency) as [E2 | N2].
  { specialize (Hlat E2). destruct (LatencyHistogram m) as [hist | e];
      destruct Hlat as [_ ->]; cbn [trips]; [| reflexivity].
    unfold Nanoseconds. change Millisecond with 1000000.
    destruct (_ >? _); reflexivity. }
  destruct (Z.eqb_spec (cbFactor (breaker w)) factorStatusCodeRatio)
    as [E3 | N3].
  { destruct (Hst E3) as [_ ->]. cbn [trips].
    destruct (float64_gt _ _); reflexivity. }
  destruct (Hnone N1 N2 N3) as [_ ->]. reflexivity.
Qed.


(** C4: take a call of [checkAndSet] on a breaker whose tripped counter
    is 0, executed by a goroutine alone, under any schedule, and a state
    it reaches after it has tripped at time [t_trip].  As long as the
    time is earlier than [t_trip] plus the trip duration, [OK()] answers
    false.  [OK()] answers true exactly when the call has returned, and
    then the timer of the trip duration was created at or after
    [t_trip], its channel delivered at or after its deadline, and the
    decrement came after that: the time is at least [t_trip] plus the
    trip duration.  Nothing but the goroutine's own decrement after the
    wait sets the counter back.  The call can always be run to its
    end, and [OK()] answers true then.  Where the selected case of the
    switch finds the threshold exceeded, every execution that returns
    has tripped, at a time [t_trip] at or after the call, and returns
    no earlier than [t_trip] plus the trip duration; and for every time
    from the call up to the trip duration later, a state is reached at
    that time in which the call has tripped and [OK()] answers false.
    Where it does not, no trip occurs and [OK()] answers true in every
    state reached. *)
Theorem recovery_after_trip (w0 : World M H) (m0 : M) :
  metrics (breaker w0) = Some m0 ->
  tripped (breaker w0) = 0 ->
  let d := TripDuration (config (breaker w0)) in
  (forall sched p' w' t_trip,
      exec sched (checkAndSet, w0) = Some (p', w') ->
      In (t_trip, atomic_AddInt32 1) (calls w0 w') ->
      (now w' < t_trip + d -> OK_now w' = Some false) /\
      (OK_now w' = Some true <-> p' = Ret tt) /\
      (OK_now w' = Some true ->
       exists ql t_reset t_load t_new t_wake t_dec,
         calls w0 w' =
           ql ++ [(t_reset, metrics_Reset); (t_trip, atomic_AddInt32 1);
                  (t_load, load_TripDuration); (t_new, time_NewTimer d);
                  (t_wake, timer_recv {| when := t_new + d |});
                  (t_dec, atomic_AddInt32 (-1))] /\
         queries_only ql /\
         t_trip <= t_new /\ t_new + d <= t_wake /\ t_wake <= t_dec /\
         t_dec <= now w' /\ t_trip + d <= now w')) /\
  (exists sched w_end,
      exec sched (checkAndSet, w0) = Some (Ret tt, w_end) /\
      OK_now w_end = Some true /\
      now w_end = (if trip_occurs (calls w0 w_end)
                   then Z.max (now w0) (now w0 + d) else now w0)) /\
  (threshold_exceeded (breaker w0) m0 = true ->
   (forall sched w',
       exec sched (checkAndSet, w0) = Some (Ret tt, w') ->
       exists t_trip,
         In (t_trip, atomic_AddInt32 1) (calls w0 w') /\
         now w0 <= t_trip /\ t_trip + d <= now w') /\
   (forall dt, 0 <= dt < d ->
      exists sched p' w',
        exec sched (checkAndSet, w0) = Some (p', w') /\
        In (now w0, atomic_AddInt32 1) (calls w0 w') /\
        now w' = now w0 + dt /\
        OK_now w' = Some false)) /\
  (threshold_exceeded (breaker w0) m0 = false ->
   forall sched p' w',
     exec sched (checkAndSet, w0) = Some (p', w') ->
     OK_now w' = Some true /\ trip_occurs (calls w0 w') = false).
Proof.
  intros Hm0 Hz d.
  pose proof (decides_checkAndSet (breaker w0) m0 Hm0) as Hdec.
  split; [| split; [| split]].
  4: {
    intros Hno sched p' w' Hex. rewrite Hno in Hdec.
    destruct (decides_exec _ _ sched _ _ _ _ Hdec eq_refl Hex)
      as [(_ & Hc & Hq) | [Hb _]]; [| discriminate Hb].
    rewrite OK_now_eq, Hc, Hz.
    split; [reflexivity | apply queries_only_no_trip, Hq]. }
  3: {
    intros Hyes. rewrite Hyes in Hdec. split.
    - intros sched w' Hex.
      destruct (decides_exec _ _ sched _ _ _ _ Hdec eq_refl Hex)
        as [(Hd & _) | (_ & t & Hin)]; [discriminate Hd |].
      destruct (checkAndSet_reaches sched w0 m0 _ w' Hm0 Hex) as [Hat _].
      destruct (exec_log_times _ _ _ _ _ Hex) as (_ & l & Hl & Ht).
      rewrite (calls_app _ _ _ Hl) in *.
      destruct (at_point_ret _ _ _ _ _ Hat)
        as [[_ Hq] | (ql & t1 & t2 & t3 & t4 & t5 & t6 & -> & _ & _ & H24
                      & H45 & H56 & H6)].
      + apply (queries_only_In _ _ _ Hq) in Hin. discriminate Hin.
      + exists t2. fold d in H45.
        assert (Hin2 : In (t2, atomic_AddInt32 1)
                  (ql ++ [(t1, metrics_Reset); (t2, atomic_AddInt32 1);
                          (t3, load_TripDuration); (t4, time_NewTimer d);
                          (t5, timer_recv {| when := t4 + d |});
                          (t6, atomic_AddInt32 (-1))])).
        { apply in_app_iff. right. right. left. reflexivity. }
        split; [exact Hin2 |]. specialize (Ht _ _ Hin2). lia.
    - intros dt Hdt.
      destruct (decides_trips _ m0 _ Hm0 Hdec w0 eq_refl)
        as (sched & ql & Hex & Hq).
      eexists (sched ++ [Tick (Z.to_N dt)]), _, _.
      split; [rewrite exec_app, Hex; reflexivity |].
      cbn [snd tick breaker now log]. split; [| split].
      + erewrite calls_app by reflexivity.
        apply in_app_iff. right. right. left. reflexivity.
      + lia.
      + rewrite OK_now_eq. unfold c_open, c_reset.
        cbn [breaker set_tripped tripped set_metrics]. rewrite Hz.
        reflexivity. }
  - intros sched p' w' t_trip Hex Hin.
    destruct (checkAndSet_reaches sched w0 m0 p' w' Hm0 Hex) as [Hat _].
    rewrite OK_now_eq. revert Hin.
    destruct Hat as [p t ql Hp Hql | t ql t1 Hql | t ql t1 t2 Hql
                    | t ql t1 t2 t3 Hql | t ql t1 t2 t3 t4 Hql
                    | t ql t1 t2 t3 t4 t5 Hql
                    | t ql t1 t2 t3 t4 t5 t6 Hql]; intros Hin.
    + apply (queries_only_In _ _ _ Hql) in Hin. discriminate Hin.
    + in_tail Hin. apply (queries_only_In _ _ _ Hql) in Hin.
      discriminate Hin.
    + in_open Hin Hql Hz.
    + in_open Hin Hql Hz.
    + in_open Hin Hql Hz.
    + in_open Hin Hql Hz.
    + in_tail Hin;
        [apply (queries_only_In _ _ _ Hql) in Hin; discriminate Hin |].
      injection Hin as <-. fold d in H2 |- *.
      cbn [after_episode set_tripped tripped]. rewrite Hz.
      change (wrap_int32 (wrap_int32 (0 + 1) + -1) =? 0) with true.
      split; [intros; lia |]. split; [split; reflexivity |].
      intros _. exists ql, t1, t3, t4, t5, t6.
      repeat split; try assumption; lia.
  - destruct (checkAndSet_outcome w0 m0 Hm0)
      as (qs & b & w_end & Hrun & _ & _ & Htrip & Hout).
    destruct (run_exec _ _ _ _ Hrun) as [sched Hs].
    exists sched, w_end. split; [exact Hs |]. rewrite OK_now_eq, Htrip.
    fold d in Hout. destruct (trips b); destruct Hout as (_ & Hb & Hn);
      rewrite Hb, Hn; split; try reflexivity.
    + cbn [after_episode set_tripped tripped]. rewrite Hz. reflexivity.
    + rewrite Hz. reflexivity.
Qed.
End TripProps.

(** ** The properties on concrete breakers *)
Section Witnesses.
Import ListMetrics Examples.

(** The scenario of a threshold of 0.5 on the status ratio: after 10
    responses with status 200 and 10 with status 500 the ratio is 0.5
    and the breaker does not trip; with one more 500 it does. *)
Example status_ratio_at_boundary :
  option_map (fun r => trip_occurs (calls (w_status 10) (snd r)))
    (@run _ _ eng_ok _ (@checkAndSet _ _ amd64) (w_status 10)) = Some false /\
  option_map (fun r => trip_occurs (calls (w_status 11) (snd r)))
    (@run _ _ eng_ok _ (@checkAndSet _ _ amd64) (w_status 11)) = Some true.
Proof. split; vm_compute; reflexivity. Qed.

(** A trip and the recovery under a schedule: after the switch, the
    reset and the increment, [OK()] answers false; the timer of one
    second is then created, and one nanosecond before its deadline the
    goroutine cannot go on; at the deadline it does, and after the
    decrement [OK()] answers true. *)
Example trip_and_recover :
  let s0 := (@checkAndSet _ _ amd64, w_status 11) in
  let OK_after sched :=
    option_map (fun s => @OK_now _ _ eng_ok (snd s))
      (@exec _ _ eng_ok _ sched s0) in
  let to_timer := [Step; Step; Step; Step; Step; Step; Step] in
  OK_after [] = Some (Some true) /\
  OK_after [Step; Step; Step; Step; Step] = Some (Some false) /\
  OK_after (to_timer ++ [Tick 999999999]) = Some (Some false) /\
  OK_after (to_timer ++ [Tick 999999999; Step]) = None /\
  OK_after (to_timer ++ [Tick 1000000000; Step]) = Some (Some false) /\
  OK_after (to_timer ++ [Tick 1000000000; Step; Step]) = Some (Some true).
Proof. repeat split; vm_compute; reflexivity. Qed.

(** The latency scenario: a threshold of 200 and latencies of 50, 60,
    70 and 900 ms trip the breaker; an empty window does not. *)
Example latency_scenario :
  @int64_of_float64 amd64 f64_200 = 200 /\
  option_map (fun r => trip_occurs (calls (w_latency window_latency) (snd r)))
    (@run _ _ eng_ok _ (@checkAndSet _ _ amd64) (w_latency window_latency))
  = Some true /\
  option_map (fun r => trip_occurs (calls (w_latency []) (snd r)))
    (@run _ _ eng_ok _ (@checkAndSet _ _ amd64) (w_latency [])) = Some false.
Proof. repeat split; vm_compute; reflexivity. Qed.

(** A threshold of -0.5 and a latency of 0: the number of whole
    milliseconds, 0, is greater than the threshold, and the breaker
    does not trip, on amd64 and on arm64: [int64(-0.5)] is 0. *)
Lemma latency_trip_not_numeric :
  let w := w_negative_threshold in
  let th := Threshold (config (breaker w)) in
  exists hist x,
    @LatencyHistogram _ _ eng_ok window_instant = Ok hist /\
    @LatencyAtQuantile _ _ eng_ok hist th = 0 /\
    valid_binary 53 1024 th = true /\
    float64_ulps th = Some x /\ x = - 2 ^ 1073 /\
    floor_ms (@LatencyAtQuantile _ _ eng_ok hist th) * 2 ^ 1074 > x /\
    (exists w', @run _ _ eng_ok _ (@checkAndSet _ _ amd64) w = Some (tt, w')
                /\ trip_occurs (calls w w') = false) /\
    (exists w', @run _ _ eng_ok _ (@checkAndSet _ _ arm64) w = Some (tt, w')
                /\ trip_occurs (calls w w') = false).
Proof.
  exists [0], (- 2 ^ 1073).
  repeat (split; [vm_compute; reflexivity |]).
  split; eexists; (split; [vm_compute; reflexivity |]);
    vm_compute; reflexivity.
Defined.

(** A threshold of +Inf and a latency of 1 ms: what [int64] gives
    outside its range depends on the architecture, and so does the
    trip. *)
Example latency_trip_out_of_range :
  let w := in_service
             {| Threshold := S754_infinity false; Factor := "latency";
                TripDuration := 1 * Second |}
             factorLatency [ {| code := 200; latency := 1 * Millisecond |} ]
  in
  option_map (fun r => trip_occurs (calls w (snd r)))
    (@run _ _ eng_ok _ (@checkAndSet _ _ amd64) w) = Some true /\
  option_map (fun r => trip_occurs (calls w (snd r)))
    (@run _ _ eng_ok _ (@checkAndSet _ _ arm64) w) = Some false.
Proof. split; vm_compute; reflexivity. Qed.

Lemma latency_policy_trip_witness :
  (exists w',
      @run _ _ eng_ok _ (@checkAndSet _ _ amd64) (w_latency window_latency)
      = Some (tt, w') /\
      trip_occurs (calls (w_latency window_latency) w') = true) /\
  (exists w',
      @run _ _ eng_ok _ (@checkAndSet _ _ amd64) w_negative_threshold
      = Some (tt, w') /\
      trip_occurs (calls w_negative_threshold w') = false).
Proof.
  split.
  - destruct (@latency_policy_trip _ _ eng_ok amd64
                (w_latency window_latency) window_latency
                (histogram window_latency) eq_refl eq_refl eq_refl)
      as (w' & Hrun & _ & _ & Hval).
    + vm_compute. discriminate.
    + exists w'. split; [exact Hrun |].
      destruct (Hval (200 * 2 ^ 1074) eq_refl eq_refl) as [Hpos _].
      apply Hpos; vm_compute; [split; [discriminate |] |]; reflexivity.
  - destruct (@latency_policy_trip _ _ eng_ok amd64
                w_negative_threshold window_instant
                (histogram window_instant) eq_refl eq_refl eq_refl)
      as (w' & Hrun & _ & _ & Hval).
    + vm_compute. discriminate.
    + exists w'. split; [exact Hrun |].
      destruct (Hval (- 2 ^ 1073) eq_refl eq_refl) as [_ Hneg].
      destruct (trip_occurs (calls w_negative_threshold w'));
        [| reflexivity].
      exfalso. assert (Hge : (0 - 1) * 2 ^ 1074 >= - 2 ^ 1073).
      { apply Hneg; [| reflexivity].
        vm_compute. split; discriminate. }
      vm_compute in Hge. apply Hge. reflexivity.
Defined.
Lemma ratio_policies_trip_witness :
  (exists w',
      @run _ _ eng_ok _ (@checkAndSet _ _ amd64) (w_error 11) = Some (tt, w') /\
      trip_occurs (calls (w_error 11) w') = true) /\
  (exists w',
      @run _ _ eng_ok _ (@checkAndSet _ _ amd64) (w_status 10) = Some (tt, w') /\
      trip_occurs (calls (w_status 10) w') = false).
Proof.
  split.
  - destruct (@ratio_policies_trip _ _ eng_ok amd64 (w_error 11)
                (responses 11 502 ++ responses 10 200) eq_refl)
      as (w' & Hrun & Herr & _).
    exists w'. split; [exact Hrun |].
    destruct (Herr eq_refl) as (_ & _ & Hval & _).
    eapply Hval; [reflexivity | reflexivity | reflexivity | reflexivity |].
    vm_compute. reflexivity.
  - destruct (@ratio_policies_trip _ _ eng_ok amd64 (w_status 10)
                (window_5xx 10) eq_refl)
      as (w' & Hrun & _ & Hst).
    exists w'. split; [exact Hrun |].
    destruct (Hst eq_refl) as (_ & _ & _ & Heq).
    apply Heq. right. vm_compute. reflexivity.
Defined.


Lemma recovery_after_trip_witness :
  (exists sched p' w',
      @exec _ _ eng_ok _ sched (@checkAndSet _ _ amd64, w_status 11)
      = Some (p', w') /\
      In (0, atomic_AddInt32 1) (calls (w_status 11) w') /\
      now w' = 999999999 /\
      @OK_now _ _ eng_ok w' = Some false) /\
  (exists sched w_end,
      @exec _ _ eng_ok _ sched (@checkAndSet _ _ amd64, w_status 11)
      = Some (Ret tt, w_end) /\
      trip_occurs (calls (w_status 11) w_end) = true /\
      now w_end = 1 * Second /\
      @OK_now _ _ eng_ok w_end = Some true) /\
  (exists w',
      @exec _ _ eng_ok _ [Step; Step; Step]
        (@checkAndSet _ _ amd64, w_status 10) = Some (Ret tt, w') /\
      trip_occurs (calls (w_status 10) w') = false /\
      @OK_now _ _ eng_ok w' = Some true).
Proof.
  destruct (@recovery_after_trip _ _ eng_ok amd64 (w_status 11)
              (window_5xx 11) eq_refl eq_refl)
    as (Hsafe & Hlive & Htrip & _).
  assert (Hyes : @threshold_exceeded _ _ eng_ok amd64
                   (breaker (w_status 11)) (window_5xx 11) = true)
    by (vm_compute; reflexivity).
  destruct (Htrip Hyes) as [Hall Hsome].
  split; [| split].
  - destruct (Hsome 999999999) as (sched & p' & w' & Hex & Hin & Hn & _).
    { vm_compute. split; [discriminate | reflexivity]. }
    exists sched, p', w'. split; [exact Hex |]. split; [exact Hin |].
    split; [exact Hn |].
    apply (Hsafe sched p' w' 0 Hex Hin). rewrite Hn. reflexivity.
  - destruct Hlive as (sched & w_end & Hex & Hok & Hn).
    destruct (Hall sched w_end Hex) as (t & Hin & _).
    assert (Ht : trip_occurs (calls (w_status 11) w_end) = true).
    { apply existsb_exists. exists (t, atomic_AddInt32 1).
      split; [exact Hin | reflexivity]. }
    exists sched, w_end. split; [exact Hex |]. split; [exact Ht |].
    rewrite Ht in Hn. split; [exact Hn | exact Hok].
  - destruct (@recovery_after_trip _ _ eng_ok amd64 (w_status 10)
                (window_5xx 10) eq_refl eq_refl) as (_ & _ & _ & Hquiet).
    assert (Hno : @threshold_exceeded _ _ eng_ok amd64
                    (breaker (w_status 10)) (window_5xx 10) = false)
      by (vm_compute; reflexivity).
    destruct (@exec _ _ eng_ok _ [Step; Step; Step]
                (@checkAndSet _ _ amd64, w_status 10))
      as [[p' w'] |] eqn:Hex; [| vm_compute in Hex; discriminate Hex].
    assert (Hp : p' = Ret tt).
    { vm_compute in Hex. injection Hex as <- _. reflexivity. }
    subst p'. exists w'. split; [reflexivity |].
    destruct (Hquiet Hno _ _ _ Hex) as [Hok Ht]. auto.
Defined.

Lemma latency_query_failure_witness :
  exists w',
    @run _ _ eng_ok _ (@checkAndSet _ _ amd64) (w_latency []) = Some (tt, w') /\
    breaker w' = breaker (w_latency []) /\
    trip_occurs (calls (w_latency []) w') = false.
Proof.
  destruct (proj1 (@latency_query_failure _ _ eng_ok amd64 (w_latency []) []
                     eq_refl eq_refl) "empty window"%string eq_refl)
    as (w' & Hrun & Hb & _ & Ht & _).
  exists w'. auto.
Defined.

Lemma Provision_unknown_factor_witness :
  exists err w',
    @run _ _ eng_ok _ Provision (fresh cfg_unknown)
    = Some (Some err, w') /\
    breaker w' = breaker (fresh cfg_unknown).
Proof.
  destruct (@Provision_unknown_factor _ _ eng_ok (fresh cfg_unknown))
    as ((err & w' & Hrun & Hb & _) & _); try (cbn; discriminate).
  exists err, w'. auto.
Defined.

Lemma OK_reads_tripped_witness :
  @OK_now _ _ eng_ok (w_status 11) = Some true /\
  exists w',
    @run _ _ eng_ok _ (OK_times 3) (w_status 11)
    = Some ([true; true; true], w') /\
    breaker w' = breaker (w_status 11).
Proof.
  destruct (@OK_reads_tripped _ _ eng_ok (w_status 11) 3)
    as (Hok & _ & w' & Hrun & Hb & _).
  split; [apply Hok; reflexivity |]. exists w'. auto.
Defined.

(** C8, as stated, fails: with an unrecognised factor string [Provision]
    returns before the default is applied, and a trip duration of zero
    stays zero. *)
Lemma Provision_default_not_applied :
  let w := fresh cfg_unknown in
  exists w',
    @run _ _ eng_ok _ Provision w
    = Some (Some "type is not defined"%string, w') /\
    TripDuration (config (breaker w)) = 0 /\
    TripDuration (config (breaker w')) = 0 /\
    TripDuration (config (breaker w')) <> 5 * Second.
Proof.
  eexists. split; [vm_compute; reflexivity |].
  repeat split. vm_compute. discriminate.
Defined.

Lemma Provision_trip_duration_witness :
  let w := fresh cfg_unset in
  (exists r w', @run _ _ eng_ok _ Provision w = Some (r, w') /\
                TripDuration (config (breaker w')) = 5 * Second) /\
  (exists r w', @run _ _ eng_fail _ Provision w = Some (r, w') /\
                TripDuration (config (breaker w')) = 5 * Second).
Proof.
  intros w. split.
  - destruct (@Provision_trip_duration _ _ eng_ok w)
      as (r & w' & Hrun & Hd & _).
    exists r, w'. split; [exact Hrun |]. apply Hd; [| reflexivity].
    vm_compute. eauto.
  - destruct (@Provision_trip_duration _ _ eng_fail w)
      as (r & w' & Hrun & Hd & _).
    exists r, w'. split; [exact Hrun |]. apply Hd; [| reflexivity].
    vm_compute. eauto.
Defined.

Lemma Provision_success_witness :
  (exists w',
      @run _ _ eng_ok _ Provision (fresh cfg_status)
      = Some (None, w') /\
      tripped (breaker w') = 0 /\
      @OK_now _ _ eng_ok w' = Some true /\
      cbFactor (breaker w') = factorStatusCodeRatio /\
      metrics (breaker w') = Some []) /\
  (exists w',
      @run _ _ eng_fail _ Provision (fresh cfg_status)
      = Some (Some "cannot create new metrics: out of memory"%string, w')).
Proof.
  split.
  - destruct (@Provision_success _ _ eng_ok (fresh cfg_status))
      as (r & w' & Hrun & Hok & _).
    assert (Hr : r = None).
    { vm_compute in Hrun. injection Hrun as <- _. reflexivity. }
    destruct (Hok Hr) as (Ht & Ho & Hf & mt & Hmt & Hm & _). subst r.
    exists w'. split; [exact Hrun |]. split; [exact Ht |].
    split; [exact Ho |]. split.
    + assert (E : typeCB !! Factor cfg_status = Some factorStatusCodeRatio)
        by (vm_compute; reflexivity).
      cbn [fresh unprovisioned breaker config] in Hf. rewrite E in Hf.
      injection Hf as <-. reflexivity.
    + rewrite Hm. injection Hmt as <-. reflexivity.
  - destruct (@Provision_success _ _ eng_fail (fresh cfg_status))
      as (r & w' & Hrun & _ & Herr).
    exists w'. rewrite Hrun.
    rewrite (Herr "out of memory"%string); [reflexivity | | reflexivity].
    vm_compute in Hrun. injection Hrun as _ <-. vm_compute. auto.
Defined.

Lemma Provision_failure_paths_witness :
  (exists w',
      @run _ _ eng_ok _ Provision (fresh cfg_unknown)
      = Some (Some "type is not defined"%string, w') /\
      breaker w' = breaker (fresh cfg_unknown)) /\
  (let w := fresh cfg_unset in
   exists r w',
     @run _ _ eng_fail _ Provision w = Some (r, w') /\
     TripDuration (config (breaker w')) = 5 * Second /\
     breaker w' <> breaker w /\
     metrics (breaker w') = None).
Proof.
  split.
  - destruct (@Provision_failure_paths _ _ eng_ok (fresh cfg_unknown))
      as (r & w' & Hrun & Hunk & _).
    destruct (Hunk eq_refl) as (-> & Hb & _). exists w'. auto.
  - intros w.
    destruct (@Provision_failure_paths _ _ eng_fail w)
      as (r & w' & Hrun & _ & Herr).
    destruct (Herr "out of memory"%string) as (_ & Hb & Hne & _ & Hm & _);
      [vm_compute; eauto | reflexivity | reflexivity |].
    exists r, w'. split; [exact Hrun |]. rewrite Hb. auto.
Defined.
End Witnesses.

(** ** Sequences of calls after [Provision] *)
Section SessionProps.
Context {M H : Type} `{RT : RTMetrics M H} `{AR : Arch}.

Lemma trip_count_app (l1 l2 : list (Z * op M H)) :
  trip_count (l1 ++ l2) = trip_count l1 + trip_count l2.
Proof.
  unfold trip_count. rewrite List.filter_app, List.length_app. lia.
Qed.

Lemma trip_count_queries (t : Z) (qs : list (op M H)) :
  forallb is_query qs = true -> trip_count (map (pair t) qs) = 0.
Proof.
  induction qs as [| o qs IH]; cbn [forallb map]; [reflexivity |].
  intros [Ho Hqs]%andb_prop. unfold trip_count in *. cbn [List.filter snd].
  rewrite (is_query_not_trip _ Ho). apply IH, Hqs.
Qed.

Lemma trip_count_bool (l : list (Z * op M H)) :
  trip_occurs l = false -> trip_count l = 0.
Proof.
  unfold trip_occurs, trip_count.
  induction l as [| e l IH]; cbn [existsb List.filter]; [reflexivity |].
  intros [He Hl]%orb_false_elim. rewrite He. apply IH, Hl.
Qed.

(** What one call of [RecordMetric] does to a breaker that is closed and
    has an engine. *)
Lemma RecordMetric_closed (w : World M H) (statusCode : Z)
    (latency : Duration) :
  tripped (breaker w) = 0 -> is_Some (metrics (breaker w)) ->
  exists w' l,
    run (RecordMetric statusCode latency) w = Some (tt, w') /\
    log w' = log w ++ l /\
    tripped (breaker w') = 0 /\
    is_Some (metrics (breaker w')) /\
    config (breaker w') = config (breaker w) /\
    cbFactor (breaker w') = cbFactor (breaker w) /\
    0 <= trip_count l <= 1 /\
    now w' =
      now w + trip_count l * Z.max 0 (TripDuration (config (breaker w))).
Proof.
  intros Hz [m Hm]. rewrite (run_RecordMetric w m _ _ Hm).
  set (w1 := commit _ _ w).
  assert (Hm1 : metrics (breaker w1) = Some (RecordRT statusCode latency m))
    by reflexivity.
  destruct (checkAndSet_outcome w1 _ Hm1)
    as (qs & b & w' & Hrun & Hq & _ & _ & Hout).
  destruct (run_log_grows _ _ _ _ Hrun) as [l1 Hl1].
  assert (Hc : calls w1 w' = l1) by (apply calls_app, Hl1).
  exists w', ((now w, metrics_Record statusCode latency) :: l1).
  split; [exact Hrun |]. split.
  { rewrite Hl1. subst w1. cbn [log commit]. rewrite <- app_assoc.
    reflexivity. }
  assert (Hrec : forall l0 : list (Z * op M H), trip_count
            ((now w, metrics_Record statusCode latency) :: l0)
          = trip_count l0) by reflexivity.
  rewrite Hrec. rewrite Hc in Hout.
  change (now w1) with (now w) in Hout.
  change (TripDuration (config (breaker w1)))
    with (TripDuration (config (breaker w))) in Hout.
  destruct (trips b); destruct Hout as (-> & Hb & Hn); rewrite Hb, Hn.
  - cbn [after_episode set_tripped set_metrics tripped metrics config
         cbFactor w1 commit breaker].
    rewrite Hz, trip_count_app, (trip_count_queries _ _ Hq).
    change (trip_count (episode_log (now w)
              (TripDuration (config (breaker w))))) with 1.
    repeat split; eauto; lia.
  - cbn [w1 commit breaker set_metrics tripped metrics config cbFactor].
    rewrite (trip_count_queries _ _ Hq). repeat split; eauto; lia.
Qed.

(** *** Under any schedule *)

(** A program that has returned takes no step. *)
Lemma exec_ret {A : Type} (sched : list label) (a : A) (w : World M H)
    p' w' :
  exec sched (Ret a, w) = Some (p', w') ->
  p' = Ret a /\ breaker w' = breaker w /\ log w' = log w /\
  now w <= now w'.
Proof.
  revert w. induction sched as [| lab sched IH]; intros w; cbn [exec].
  - intros [= <- <-]. repeat split; lia.
  - destruct lab as [dt |]; cbn [exec1 fst snd step]; [| discriminate].
    intros Hex. destruct (IH _ Hex) as (-> & Hb & Hl & Hn).
    cbn [tick breaker now log] in *. repeat split; auto; lia.
Qed.

(** An execution of [bind p f] that returns is an execution of [p] that
    returns, followed by one of [f] on its result. *)
Lemma exec_bind_ret {A B : Type} (sched : list label) :
  forall (p : prog M H A) (f : A -> prog M H B) (w : World M H) b w',
    exec sched (bind p f, w) = Some (Ret b, w') ->
    exists s1 s2 a w1,
      sched = s1 ++ s2 /\
      exec s1 (p, w) = Some (Ret a, w1) /\
      exec s2 (f a, w1) = Some (Ret b, w').
Proof.
  induction sched as [| lab sched IH]; intros p f w b w'.
  - cbn [exec]. intros Hex. destruct p as [a | o k]; [| discriminate Hex].
    exists [], [], a, w. auto.
  - destruct p as [a | o k].
    + cbn [bind]. intros Hex. exists [], (lab :: sched), a, w. auto.
    + destruct lab as [dt |]; cbn [exec exec1 fst snd].
      * intros Hex. destruct (IH (Do o k) f _ _ _ Hex)
          as (s1 & s2 & a & w1 & -> & H1 & H2).
        exists (Tick dt :: s1), s2, a, w1. auto.
      * cbn [bind step].
        destruct (perform o (now w) (breaker w)) as [r c | |] eqn:Hp;
          try discriminate.
        intros Hex. destruct (IH (k r) f _ _ _ Hex)
          as (s1 & s2 & a & w1 & -> & H1 & H2).
        exists (Step :: s1), s2, a, w1. split; [reflexivity |].
        split; [| exact H2]. cbn [exec exec1 fst snd step].
        rewrite Hp. exact H1.
Qed.

(** The executions of one instruction. *)
Lemma exec_instruction (sched : list label) (o : op M H) :
  forall (w : World M H) a w',
    exec sched (Do o (fun r => Ret r), w) = Some (Ret a, w') ->
    exists t c,
      now w <= t /\ t <= now w' /\
      perform o t (breaker w) = Done a c /\
      breaker w' = c /\ log w' = log w ++ [(t, o)].
Proof.
  induction sched as [| lab sched IH]; intros w a w'; cbn [exec];
    [discriminate |].
  destruct lab as [dt |]; cbn [exec1 fst snd step].
  - intros Hex. destruct (IH _ _ _ Hex) as (t & c & H1 & H2 & Hp & Hb & Hl).
    cbn [tick breaker now log] in *. exists t, c.
    repeat split; auto; lia.
  - destruct (perform o (now w) (breaker w)) as [r c | |] eqn:Hp;
      try discriminate.
    intros Hex. destruct (exec_ret _ _ _ _ _ Hex) as (Hr & Hb & Hl & Hn).
    injection Hr as <-. cbn [commit breaker now log] in *.
    exists (now w), c. repeat split; auto; lia.
Qed.

Lemma trip_count_queries_only (l : list (Z * op M H)) :
  queries_only l -> trip_count l = 0.
Proof.
  intros Hq. unfold trip_count.
  induction Hq as [| e l He Hl IH]; cbn [List.filter]; [reflexivity |].
  rewrite (is_query_not_trip _ He). exact IH.
Qed.

(** One call of [checkAndSet] on a breaker that is closed and has an
    engine, under any schedule, once it has returned. *)
Lemma checkAndSet_returned (sched : list label) (w w' : World M H) :
  tripped (breaker w) = 0 -> is_Some (metrics (breaker w)) ->
  exec sched (checkAndSet, w) = Some (Ret tt, w') ->
  exists l,
    log w' = log w ++ l /\
    tripped (breaker w') = 0 /\
    is_Some (metrics (breaker w')) /\
    config (breaker w') = config (breaker w) /\
    cbFactor (breaker w') = cbFactor (breaker w) /\
    0 <= trip_count l <= 1 /\
    now w + trip_count l * Z.max 0 (TripDuration (config (breaker w)))
    <= now w'.
Proof.
  intros Hz [m Hm] Hex.
  destruct (checkAndSet_reaches sched w m _ w' Hm Hex) as [Hat Hle].
  destruct (exec_log_times _ _ _ _ _ Hex) as (_ & l & Hl & Ht).
  rewrite (calls_app _ _ _ Hl) in Hat. exists l. split; [exact Hl |].
  destruct (at_point_ret _ _ _ _ _ Hat)
    as [[-> Hq] | (ql & t1 & t2 & t3 & t4 & t5 & t6 & -> & Hq & -> & H24
                  & H45 & H56 & H6)].
  - rewrite (trip_count_queries_only _ Hq). repeat split; eauto; lia.
  - cbn [after_episode set_tripped set_metrics tripped metrics config
         cbFactor]. rewrite Hz, trip_count_app,
      (trip_count_queries_only _ Hq).
    match goal with
    | |- context [trip_count (?x :: ?y)] =>
        change (trip_count (x :: y)) with 1
    end.
    assert (now w <= t2).
    { apply (Ht t2 (atomic_AddInt32 1)), in_app_iff.
      right. right. left. reflexivity. }
    repeat split; eauto; lia.
Qed.

(** The same for [RecordMetric]. *)
Lemma RecordMetric_returned (sched : list label) (w w' : World M H)
    (statusCode : Z) (latency : Duration) :
  tripped (breaker w) = 0 -> is_Some (metrics (breaker w)) ->
  exec sched (RecordMetric statusCode latency, w) = Some (Ret tt, w') ->
  exists l,
    log w' = log w ++ l /\
    tripped (breaker w') = 0 /\
    is_Some (metrics (breaker w')) /\
    config (breaker w') = config (breaker w) /\
    cbFactor (breaker w') = cbFactor (breaker w) /\
    0 <= trip_count l <= 1 /\
    now w + trip_count l * Z.max 0 (TripDuration (config (breaker w)))
    <= now w'.
Proof.
  intros Hz [m Hm] Hex.
  change (RecordMetric statusCode latency)
    with (bind (Do (metrics_Record statusCode latency) (fun r => Ret r))
               (fun _ => @checkAndSet M H AR)) in Hex.
  destruct (exec_bind_ret _ _ _ _ _ _ Hex)
    as (s1 & s2 & [] & w1 & _ & H1 & H2).
  destruct (exec_instruction _ _ _ _ _ H1)
    as (t & c & Ht1 & Ht2 & Hp & Hb & Hl1).
  cbn [perform] in Hp. unfold with_metrics in Hp. rewrite Hm in Hp.
  injection Hp as Hc. rewrite <- Hc in Hb.
  destruct (checkAndSet_returned s2 w1 w') as (l & Hl & Hz' & Hm' & Hc' & Hf'
                                            & Hb' & Hn'); auto.
  { rewrite Hb. exact Hz. }
  { rewrite Hb. eexists. reflexivity. }
  exists ((t, metrics_Record statusCode latency) :: l).
  split; [rewrite Hl, Hl1, <- app_assoc; reflexivity |].
  assert (Hrec : forall l0 : list (Z * op M H), trip_count
            ((t, metrics_Record statusCode latency) :: l0)
          = trip_count l0) by reflexivity.
  rewrite Hrec, Hc', Hf', Hb in *.
  cbn [set_metrics config cbFactor] in *.
  repeat split; auto; lia.
Qed.

(** A sequence of calls, under any schedule. *)
Lemma session_returned (rs : list (Z * Duration)) :
  forall (sched : list label) (w w' : World M H),
    tripped (breaker w) = 0 -> is_Some (metrics (breaker w)) ->
    exec sched (session rs, w) = Some (Ret tt, w') ->
    exists l,
      log w' = log w ++ l /\
      tripped (breaker w') = 0 /\
      is_Some (metrics (breaker w')) /\
      config (breaker w') = config (breaker w) /\
      cbFactor (breaker w') = cbFactor (breaker w) /\
      0 <= trip_count l <= Z.of_nat (length rs) /\
      now w + trip_count l * Z.max 0 (TripDuration (config (breaker w)))
      <= now w'.
Proof.
  induction rs as [| [s d] rs IH]; intros sched w w' Hz Hm; cbn [session].
  - intros Hex. destruct (exec_ret _ _ _ _ _ Hex) as (_ & Hb & Hl & Hn).
    exists []. rewrite app_nil_r, Hb. change (trip_count []) with 0.
    cbn [length]. repeat split; auto; lia.
  - intros Hex. destruct (exec_bind_ret _ _ _ _ _ _ Hex)
      as (s1 & s2 & [] & w1 & _ & H1 & H2).
    destruct (RecordMetric_returned _ _ _ _ _ Hz Hm H1)
      as (l1 & Hl1 & Hz1 & Hm1 & Hc1 & Hf1 & Hb1 & Hn1).
    destruct (IH _ _ _ Hz1 Hm1 H2)
      as (l2 & Hl2 & Hz2 & Hm2 & Hc2 & Hf2 & Hb2 & Hn2).
    exists (l1 ++ l2). split; [rewrite Hl2, Hl1, app_assoc; reflexivity |].
    rewrite trip_count_app, Hc2, Hc1, Hf2, Hf1 in *.
    cbn [length]. repeat split; auto; lia.
Qed.

(** X1: after a successful [Provision], any sequence of [RecordMetric]
    calls of one goroutine runs without panic, and under every schedule,
    when it has returned: the tripped counter is 0, [OK()] answers true,
    factor code and configuration are those [Provision] left, there
    were at most as many trips as calls, and at least the number of
    trips times the trip duration has passed (nothing is required where
    the trip duration is negative). *)
Theorem session_after_Provision (w0 w : World M H)
    (rs : list (Z * Duration)) :
  run Provision w0 = Some (None, w) ->
  let returned (w' : World M H) : Prop :=
    tripped (breaker w') = 0 /\
    OK_now w' = Some true /\
    is_Some (metrics (breaker w')) /\
    config (breaker w') = config (breaker w) /\
    cbFactor (breaker w') = cbFactor (breaker w) /\
    0 <= trip_count (calls w w') <= Z.of_nat (length rs) /\
    now w + trip_count (calls w w')
            * Z.max 0 (TripDuration (config (breaker w))) <= now w' in
  (exists w', run (session rs) w = Some (tt, w') /\ returned w') /\
  (forall sched w',
      exec sched (session rs, w) = Some (Ret tt, w') -> returned w').
Proof.
  intros Hprov returned.
  assert (Hinit : tripped (breaker w) = 0 /\ is_Some (metrics (breaker w))).
  { destruct (Provision_cases w0) as (r & w1 & Hrun & _ & Hc).
    rewrite Hprov in Hrun. injection Hrun as <- <-.
    destruct (typeCB !! _); [| destruct Hc; discriminate].
    destruct NewRTMetrics; destruct Hc as (Hr & -> & _); [| discriminate].
    split; [reflexivity | eexists; reflexivity]. }
  destruct Hinit as [Hz Hm].
  assert (Hall : forall sched w',
    exec sched (session rs, w) = Some (Ret tt, w') -> returned w').
  { intros sched w' Hex.
    destruct (session_returned rs sched w w' Hz Hm Hex)
      as (l & Hl & Hz' & Hm' & Hc' & Hf' & Hb & Hn).
    unfold returned. rewrite (calls_app _ _ _ Hl), OK_now_eq, Hz'. auto 10. }
  split; [| exact Hall].
  - assert (Hgen : forall rs w,
      tripped (breaker w) = 0 -> is_Some (metrics (breaker w)) ->
      exists w',
        run (session rs) w = Some (tt, w') /\
        tripped (breaker w') = 0 /\ is_Some (metrics (breaker w'))).
    { clear. induction rs as [| [s l] rs IH]; intros w Hz Hm.
      - exists w. cbn [session run]. auto.
      - cbn [session]. rewrite run_bind.
        destruct (RecordMetric_closed w s l Hz Hm)
          as (w1 & l1 & Hrun1 & _ & Hz1 & Hm1 & _).
        rewrite Hrun1. apply (IH w1 Hz1 Hm1). }
    destruct (Hgen rs w Hz Hm) as (w' & Hrun & _).
    exists w'. split; [exact Hrun |].
    destruct (run_exec _ _ _ _ Hrun) as [sched Hex].
    apply (Hall sched w' Hex).
Qed.
End SessionProps.

(** ** [checkAndSet] without a policy, and [Provision] again *)
Section EdgeProps.
Context {M H : Type} `{RT : RTMetrics M H} `{AR : Arch}.

(** X2: on a breaker whose factor code is none of the three of the
    switch, as in a breaker that never went through [Provision], [checkAndSet]
    loads the code and returns: it calls no method of the engine (which
    may be nil), does not trip and does not wait. *)
Theorem checkAndSet_without_policy (w : World M H) :
  cbFactor (breaker w) <> factorErrorRatio ->
  cbFactor (breaker w) <> factorLatency ->
  cbFactor (breaker w) <> factorStatusCodeRatio ->
  exists w',
    run checkAndSet w = Some (tt, w') /\
    breaker w' = breaker w /\
    now w' = now w /\
    calls w w' = [(now w, load_cbFactor)].
Proof.
  intros N1 N2 N3. destruct w as [[tr f mo cfg] t lg].
  cbn [breaker cbFactor] in N1, N2, N3.
  eexists. split.
  - lhs_sym.
    rewrite (proj2 (Z.eqb_neq _ _) N1), (proj2 (Z.eqb_neq _ _) N2),
      (proj2 (Z.eqb_neq _ _) N3).
    lhs_sym. reflexivity.
  - repeat split. calls_norm. reflexivity.
Qed.

Lemma defaulted_idem (c : Simple M) : defaulted (defaulted c) = defaulted c.
Proof.
  unfold defaulted.
  destruct (Z.eqb_spec (TripDuration (config c)) 0) as [E | E].
  - reflexivity.
  - rewrite (proj2 (Z.eqb_neq _ _) E). reflexivity.
Qed.

(** X3: [Provision] on the breaker that [Provision] returned gives the
    same result and the same breaker.  A successful [Provision] leaves a
    breaker that the configuration alone determines: whatever the
    tripped counter, the factor code and the engine were, the counter is
    0 and the engine the one just constructed. *)
Theorem Provision_again (w : World M H) :
  exists r w' w'',
    run Provision w = Some (r, w') /\
    run Provision w' = Some (r, w'') /\
    breaker w'' = breaker w' /\
    forall v : World M H,
      config (breaker v) = config (breaker w) ->
      exists v',
        run Provision v = Some (r, v') /\
        (r = None -> breaker v' = breaker w').
Proof.
  destruct (Provision_cases w) as (r & w' & Hrun & _ & Hc).
  destruct (Provision_cases w') as (r2 & w'' & Hrun2 & _ & Hc2).
  exists r, w', w''. split; [exact Hrun |].
  assert (Hsame : r2 = r /\ breaker w'' = breaker w').
  { destruct (typeCB !! Factor (config (breaker w))) as [f |] eqn:Hf.
    - assert (Hb : Factor (config (breaker w')) = Factor (config (breaker w))
                   /\ defaulted (breaker w') = breaker w').
      { destruct NewRTMetrics; destruct Hc as (_ & -> & _).
        + split; [apply defaulted_fields |].
          unfold defaulted at 1. cbn [set_tripped set_metrics set_cbFactor
            config]. rewrite defaulted_TripDuration.
          destruct (Z.eqb_spec (TripDuration (config (breaker w))) 0)
            as [E | E]; [reflexivity |].
          rewrite (proj2 (Z.eqb_neq _ _) E). reflexivity.
        + split; [apply defaulted_fields | apply defaulted_idem]. }
      destruct Hb as [HF Hd]. rewrite HF, Hf, Hd in Hc2.
      destruct NewRTMetrics; destruct Hc as (-> & Hb & _);
        destruct Hc2 as (-> & Hb2 & _); split; try reflexivity;
        rewrite Hb2, Hb; reflexivity.
    - destruct Hc as (-> & Hb & _). rewrite Hb, Hf in Hc2.
      destruct Hc2 as (-> & Hb2 & _). split; congruence. }
  destruct Hsame as [-> Hb]. split; [exact Hrun2 |]. split; [exact Hb |].
  intros v Hv. destruct (Provision_cases v) as (rv & v' & Hrunv & _ & Hcv).
  exists v'. rewrite Hv in Hcv.
  destruct (typeCB !! Factor (config (breaker w))) as [f |].
  - destruct NewRTMetrics; destruct Hc as (-> & Hbw & _);
      destruct Hcv as (-> & Hbv & _); (split; [exact Hrunv |]);
      [| discriminate].
    intros _. rewrite Hbw, Hbv. unfold defaulted. rewrite Hv.
    destruct (TripDuration (config (breaker w)) =? 0);
      unfold set_tripped, set_metrics, set_cbFactor, set_TripDuration;
      cbn [tripped cbFactor metrics config]; rewrite ?Hv; reflexivity.
  - destruct Hc as (-> & _); destruct Hcv as (-> & _).
    split; [exact Hrunv | discriminate].
Qed.
End EdgeProps.

(** ** Several goroutines on one breaker *)
Section PoolProps.
Context {M H : Type} `{RT : RTMetrics M H} `{AR : Arch}.

Lemma wrap_int32_add_l (a b : Z) :
  wrap_int32 (wrap_int32 a + b) = wrap_int32 (a + b).
Proof.
  unfold wrap_int32.
  replace ((a + 2 ^ 31) mod 2 ^ 32 - 2 ^ 31 + b + 2 ^ 31)
    with ((a + 2 ^ 31) mod 2 ^ 32 + b) by lia.
  rewrite Zplus_mod_idemp_l. f_equal. f_equal. lia.
Qed.

Lemma Zsum_insert (l : list Z) (i : nat) (k k' : Z) :
  l !! i = Some k -> Zsum (<[i := k']> l) = Zsum l - k + k'.
Proof.
  unfold Zsum. revert i.
  induction l as [| x l IH]; intros [| i]; cbn; try discriminate.
  - intros [= ->]. lia.
  - intros Hl. specialize (IH i Hl).
    etransitivity; [apply (f_equal (Z.add x)), IH | lia].
Qed.

Lemma goroutine_at_cases (p : prog M H unit) (k : Z) :
  goroutine_at p k -> (k = 0 /\ idle p) \/ (k = 1 /\ in_episode p).
Proof. destruct 1; auto. Qed.

Lemma idle_not_in_episode (p : prog M H unit) :
  idle p -> in_episode p -> False.
Proof.
  intros Hi He. destruct He as [| d | tm |].
  - cbn in Hi. destruct Hi as [[_ Hk] | [Ho _]]; [| discriminate Ho].
    specialize (Hk 0). cbn in Hk.
    destruct Hk as [[Hq _] | [Ho _]]; discriminate.
  - cbn in Hi. destruct Hi as [[Hq _] | [Ho _]]; discriminate.
  - rewrite waiting_eq in Hi. cbn in Hi.
    destruct Hi as [[Hq _] | [Ho _]]; discriminate.
  - cbn in Hi. destruct Hi as [[Hq _] | [Ho _]]; discriminate.
Qed.

Lemma quiet_idle (p : prog M H unit) : quiet p -> idle p.
Proof.
  induction 1 as [| | o k Ho Hk IH].
  - exact I.
  - cbn. left. split; [reflexivity |]. intros _. cbn. right.
    split; [reflexivity | reflexivity].
  - cbn [idle]. left. split; [| exact IH].
    unfold keeps_tripped. rewrite Ho. reflexivity.
Qed.

Lemma idle_RecordMetric (statusCode : Z) (latency : Duration) :
  idle (@RecordMetric M H AR statusCode latency).
Proof.
  unfold RecordMetric. cbn [idle]. left. split; [reflexivity |].
  intros _. apply quiet_idle, quiet_checkAndSet.
Qed.

(** One step of a goroutine: where it goes, and what it does to the
    counter. *)
Lemma goroutine_step (p : prog M H unit) (k : Z) (w : World M H) p' w' :
  goroutine_at p k -> is_Some (metrics (breaker w)) ->
  step p w = Some (p', w') ->
  exists k', goroutine_at p' k' /\ is_Some (metrics (breaker w')) /\
             (config (breaker w') = config (breaker w) /\
              cbFactor (breaker w') = cbFactor (breaker w)) /\
             forall S, tripped (breaker w) = wrap_int32 S ->
                       tripped (breaker w') = wrap_int32 (S - k + k').
Proof.
  intros Hat [m Hm] Hstep. destruct w as [c t lg].
  cbn [breaker] in Hm. destruct Hat as [p Hi | p He].
  - destruct p as [[] | o k0]; [discriminate Hstep |].
    cbn [idle] in Hi. destruct Hi as [[Ho Hk] | [-> Hk]].
    + cbn [step breaker now] in Hstep.
      assert (Hp : exists r c', perform o t c = Done r c' /\
                tripped c' = tripped c /\ is_Some (metrics c') /\
                config c' = config c /\ cbFactor c' = cbFactor c).
      { unfold keeps_tripped in Ho.
        destruct o; try discriminate Ho; cbn [perform];
          unfold with_metrics; rewrite ?Hm; eexists _, _;
          (split; [reflexivity |]);
          cbn [set_metrics tripped metrics config cbFactor];
          rewrite ?Hm; eauto. }
      destruct Hp as (r & c' & Hp & Ht & Hm' & Hcf). rewrite Hp in Hstep.
      injection Hstep as <- <-. exists 0.
      split; [apply at_idle, Hk |]. split; [exact Hm' |].
      split; [exact Hcf |].
      intros S HS. cbn [breaker commit] in *. rewrite Ht, HS. f_equal. lia.
    + cbn [step perform breaker now] in Hstep. injection Hstep as <- <-.
      rewrite Hk. exists 1. split; [apply at_episode, ep_incr |].
      split; [cbn; eauto |].
      split; [split; reflexivity |].
      intros S HS. cbn [breaker commit set_tripped tripped] in *.
      rewrite HS, wrap_int32_add_l. f_equal. lia.
  - destruct He as [| d | tm |].
    + cbn in Hstep. injection Hstep as <- <-. exists 1.
      split; [apply at_episode, ep_load |]. split; [cbn; eauto |].
      split; [split; reflexivity |].
      intros S HS. cbn [breaker commit] in *. rewrite HS. f_equal. lia.
    + cbn in Hstep. injection Hstep as <- <-. exists 1.
      split; [apply at_episode, ep_waiting |]. split; [cbn; eauto |].
      split; [split; reflexivity |].
      intros S HS. cbn [breaker commit] in *. rewrite HS. f_equal. lia.
    + rewrite waiting_eq in Hstep. cbn [step perform now breaker] in Hstep.
      destruct (when tm <=? t); [| discriminate Hstep].
      injection Hstep as <- <-. exists 1.
      split; [apply at_episode, ep_woken |]. split; [cbn; eauto |].
      split; [split; reflexivity |].
      intros S HS. cbn [breaker commit] in *. rewrite HS. f_equal. lia.
    + cbn [step perform breaker now after_wait] in Hstep.
      injection Hstep as <- <-. exists 0.
      split; [apply at_idle; exact I |]. split; [cbn; eauto |].
      split; [split; reflexivity |].
      intros S HS. cbn [breaker commit set_tripped tripped] in *.
      rewrite HS, wrap_int32_add_l. f_equal. lia.
Qed.

Lemma pool_step_inv (ch : choice) (P P' : Pool M H) :
  pool_inv P -> pool_step ch P = Some P' ->
  pool_inv P' /\ length (goroutines P') = length (goroutines P) /\
  config (breaker (shared P')) = config (breaker (shared P)) /\
  cbFactor (breaker (shared P')) = cbFactor (breaker (shared P)).
Proof.
  intros (Hm & ks & Hks & Ht) Hstep. destruct ch as [dt | i].
  - injection Hstep as <-. split; [| repeat split].
    split; [exact Hm |]. exists ks. auto.
  - cbn [pool_step] in Hstep.
    destruct (goroutines P !! i) as [p |] eqn:Hp; [| discriminate].
    destruct (step p (shared P)) as [[p' w'] |] eqn:Hs; [| discriminate].
    injection Hstep as <-. cbn [goroutines shared].
    destruct (Forall2_lookup_l _ _ _ _ _ Hks Hp) as (k & Hk & Hat).
    destruct (goroutine_step _ _ _ _ _ Hat Hm Hs)
      as (k' & Hat' & Hm' & Hcf & HS).
    split; [| split; [apply length_insert | exact Hcf]].
    split; [exact Hm' |].
    exists (<[i := k']> ks). split.
    + apply Forall2_insert; assumption.
    + rewrite (Zsum_insert _ _ _ _ Hk). apply HS, Ht.
Qed.

Lemma pool_exec_frame (sched : list choice) (P P' : Pool M H) :
  pool_inv P -> pool_exec sched P = Some P' ->
  pool_inv P' /\ length (goroutines P') = length (goroutines P) /\
  config (breaker (shared P')) = config (breaker (shared P)) /\
  cbFactor (breaker (shared P')) = cbFactor (breaker (shared P)).
Proof.
  revert P. induction sched as [| ch sched IH]; intros P Hinv; cbn [pool_exec].
  - intros [= <-]. auto.
  - destruct (pool_step ch P) as [P1 |] eqn:Hs; [| discriminate].
    destruct (pool_step_inv _ _ _ Hinv Hs) as (Hinv1 & Hlen1 & Hc1 & Hf1).
    intros Hrest. destruct (IH _ Hinv1 Hrest) as (Hinv' & Hlen' & Hc' & Hf').
    split; [exact Hinv' |]. repeat split; congruence.
Qed.

Lemma pool_exec_inv (sched : list choice) (P P' : Pool M H) :
  pool_inv P -> pool_exec sched P = Some P' ->
  pool_inv P' /\ length (goroutines P') = length (goroutines P).
Proof.
  intros Hinv Hex. destruct (pool_exec_frame _ _ _ Hinv Hex) as (? & ? & _).
  auto.
Qed.

Lemma Zsum_bounds (ps : list (prog M H unit)) (ks : list Z) :
  Forall2 goroutine_at ps ks -> 0 <= Zsum ks <= Z.of_nat (length ps).
Proof.
  induction 1 as [| p k ps ks Hat _ IH]; cbn [Zsum fold_right length].
  - lia.
  - fold (Zsum ks). destruct (goroutine_at_cases _ _ Hat) as [[-> _] | [-> _]];
      lia.
Qed.

Lemma Zsum_episode (ps : list (prog M H unit)) (ks : list Z) i p :
  Forall2 goroutine_at ps ks -> ps !! i = Some p -> in_episode p ->
  1 <= Zsum ks.
Proof.
  intros Hks. revert i. induction Hks as [| q k ps ks Hat Hks IH];
    intros [| i]; cbn; try discriminate.
  - intros [= ->] He. fold (Zsum ks).
    pose proof (Zsum_bounds _ _ Hks).
    destruct (goroutine_at_cases _ _ Hat) as [[-> Hi] | [-> _]]; [| lia].
    destruct (idle_not_in_episode _ Hi He).
  - intros Hp He. fold (Zsum ks). specialize (IH i Hp He).
    destruct (goroutine_at_cases _ _ Hat) as [[-> _] | [-> _]]; lia.
Qed.

Lemma Zsum_no_episode (ps : list (prog M H unit)) (ks : list Z) :
  Forall2 goroutine_at ps ks ->
  (forall p, In p ps -> ~ in_episode p) -> Zsum ks = 0.
Proof.
  induction 1 as [| p k ps ks Hat _ IH]; cbn [Zsum fold_right]; intros Hno.
  - reflexivity.
  - fold (Zsum ks). rewrite IH by (intros q Hq; apply Hno; right; exact Hq).
    destruct (goroutine_at_cases _ _ Hat) as [[-> _] | [-> He]]; [lia |].
    destruct (Hno p (or_introl eq_refl) He).
Qed.

Lemma pool_inv_spawn (rs : list (Z * Duration)) (w : World M H) :
  tripped (breaker w) = 0 -> is_Some (metrics (breaker w)) ->
  pool_inv (spawn rs w).
Proof.
  intros Hz Hm. split; [exact Hm |]. exists (map (fun _ => 0) rs). split.
  - unfold spawn. cbn [goroutines]. clear.
    induction rs as [| r rs IH]; cbn [map]; constructor; [| exact IH].
    apply at_idle, idle_RecordMetric.
  - cbn [spawn shared]. rewrite Hz. clear.
    assert (Zsum (map (fun _ : Z * Duration => 0) rs) = 0) as ->
      by (induction rs as [| r rs IH]; cbn; [reflexivity | exact IH]).
    reflexivity.
Qed.

(** With fewer than 2^31 goroutines the counter is the number of those
    in a trip, without wrap-around. *)
Lemma pool_inv_count (P : Pool M H) :
  pool_inv P -> Z.of_nat (length (goroutines P)) < 2 ^ 31 ->
  exists ks, Forall2 goroutine_at (goroutines P) ks /\
             tripped (breaker (shared P)) = Zsum ks /\
             0 <= Zsum ks <= Z.of_nat (length (goroutines P)).
Proof.
  intros (_ & ks & Hks & Ht) Hn. exists ks.
  pose proof (Zsum_bounds _ _ Hks) as Hb.
  split; [exact Hks |]. split; [| exact Hb].
  rewrite Ht. apply wrap_int32_small. lia.
Qed.

Lemma pool_inv_closed (P : Pool M H) :
  pool_inv P -> Z.of_nat (length (goroutines P)) < 2 ^ 31 ->
  (forall p, In p (goroutines P) -> ~ in_episode p) ->
  OK_now (shared P) = Some true.
Proof.
  intros Hinv Hn Hno.
  destruct (pool_inv_count P Hinv Hn) as (ks & Hks & Ht & _).
  rewrite OK_now_eq, Ht, (Zsum_no_episode _ _ Hks Hno). reflexivity.
Qed.

(** X4: fewer than 2^31 goroutines each call [RecordMetric] once on a
    breaker that is closed and has an engine.  Under any interleaving of
    their instructions: the tripped counter is at least 0 and at most
    the number of goroutines; [OK()] answers false as long as one
    goroutine is between the increment and the decrement of a trip, and
    true as soon as none is, in particular when all have returned;
    configuration and factor code are never written. *)
Theorem pool_counter (rs : list (Z * Duration)) (w : World M H)
    (sched : list choice) (P : Pool M H) :
  tripped (breaker w) = 0 -> is_Some (metrics (breaker w)) ->
  Z.of_nat (length rs) < 2 ^ 31 ->
  pool_exec sched (spawn rs w) = Some P ->
  length (goroutines P) = length rs /\
  0 <= tripped (breaker (shared P)) <= Z.of_nat (length rs) /\
  ((exists i p, goroutines P !! i = Some p /\ in_episode p) ->
   OK_now (shared P) = Some false) /\
  ((forall p, In p (goroutines P) -> ~ in_episode p) ->
   OK_now (shared P) = Some true) /\
  ((forall p, In p (goroutines P) -> p = Ret tt) ->
   tripped (breaker (shared P)) = 0) /\
  config (breaker (shared P)) = config (breaker w) /\
  cbFactor (breaker (shared P)) = cbFactor (breaker w).
Proof.
  intros Hz Hm Hlen Hex.
  destruct (pool_exec_frame _ _ _ (pool_inv_spawn rs w Hz Hm) Hex)
    as (Hinv & Hl & Hcfg & Hfac).
  assert (Hl' : length (goroutines P) = length rs).
  { rewrite Hl. unfold spawn. cbn [goroutines]. apply length_map. }
  assert (Hn : Z.of_nat (length (goroutines P)) < 2 ^ 31)
    by (rewrite Hl'; exact Hlen).
  destruct (pool_inv_count P Hinv Hn) as (ks & Hks & Ht & Hb).
  rewrite Hl' in Hb.
  split; [exact Hl' |]. split; [lia |].
  split; [| split; [| split; [| split; [exact Hcfg | exact Hfac]]]].
  - intros (i & p & Hp & He). pose proof (Zsum_episode _ _ _ _ Hks Hp He).
    rewrite OK_now_eq, Ht.
    destruct (Z.eqb_spec (Zsum ks) 0); [lia | reflexivity].
  - apply (pool_inv_closed P Hinv Hn).
  - intros Hret. rewrite Ht. apply (Zsum_no_episode _ _ Hks).
    intros p Hp He. rewrite (Hret p Hp) in He.
    apply (idle_not_in_episode (Ret tt) I He).
Qed.
End PoolProps.

(** ** Every call returns *)
Section PoolLiveness.
Context {M H : Type} `{RT : RTMetrics M H} `{AR : Arch}.

Lemma pool_exec_app (s1 s2 : list choice) (P : Pool M H) :
  pool_exec (s1 ++ s2) P =
  match pool_exec s1 P with
  | Some P1 => pool_exec s2 P1
  | None => None
  end.
Proof.
  revert P. induction s1 as [| ch s1 IH]; intros P; cbn [app pool_exec].
  - reflexivity.
  - destruct (pool_step ch P); [apply IH | reflexivity].
Qed.

(** A goroutine alone runs to its end from any state of the pool. *)
Lemma episode_finishes (p : prog M H unit) (w : World M H) :
  in_episode p -> exists w', run p w = Some (tt, w') /\
                             metrics (breaker w') = metrics (breaker w).
Proof.
  assert (Hwait : forall tm (v : World M H), exists v',
            run (waiting tm) v = Some (tt, v') /\
            metrics (breaker v') = metrics (breaker v)).
  { intros tm v. rewrite waiting_eq, run_timer_recv.
    eexists. split; reflexivity. }
  intros [| d | tm |].
  - cbn [run after_incr after_load wake perform commit breaker now].
    edestruct Hwait as (v' & Hr & Hm').
    exists v'. split; [exact Hr | exact Hm'].
  - cbn [run after_load wake perform commit breaker now].
    edestruct Hwait as (v' & Hr & Hm').
    exists v'. split; [exact Hr | exact Hm'].
  - apply Hwait.
  - eexists. split; reflexivity.
Qed.

Lemma idle_finishes (p : prog M H unit) (w : World M H) :
  idle p -> is_Some (metrics (breaker w)) ->
  exists w', run p w = Some (tt, w') /\ is_Some (metrics (breaker w')).
Proof.
  revert w. induction p as [[] | o k IH]; intros w Hi Hm.
  - exists w. auto.
  - cbn [idle] in Hi. destruct Hi as [[Ho Hk] | [-> Hk]].
    + assert (Hp : exists r c', perform o (now w) (breaker w) = Done r c' /\
                is_Some (metrics c')).
      { destruct Hm as [m Hm]. unfold keeps_tripped in Ho.
        destruct o; try discriminate Ho; cbn [perform];
          unfold with_metrics; rewrite ?Hm; eexists _, _;
          (split; [reflexivity |]); cbn [set_metrics metrics];
          rewrite ?Hm; eauto. }
      destruct Hp as (r & c' & Hp & Hm').
      cbn [run]. unfold wake. rewrite Hp, Hp.
      apply IH; [apply Hk | exact Hm'].
    + cbn [run wake perform]. rewrite Hk.
      destruct (episode_finishes after_incr
                  (commit (atomic_AddInt32 1)
                     (set_tripped (wrap_int32 (tripped (breaker w) + 1))
                        (breaker w)) w) ep_incr) as (w' & Hrun & Hm').
      exists w'. split; [exact Hrun |]. rewrite Hm'. exact Hm.
Qed.

(** The sequential execution of goroutine [i] is an execution of the
    pool in which the others stand still. *)
Lemma pool_runs_goroutine (p : prog M H unit) :
  forall (P : Pool M H) (i : nat) w',
    goroutines P !! i = Some p ->
    run p (shared P) = Some (tt, w') ->
    exists sched,
      pool_exec sched P =
      Some {| goroutines := <[i := Ret tt]> (goroutines P); shared := w' |}.
Proof.
  induction p as [[] | o k IH]; intros P i w' Hp; cbn [run].
  - intros [= <-]. exists []. cbn [pool_exec]. destruct P as [gs w].
    cbn [goroutines shared] in *. rewrite (list_insert_id _ _ _ Hp).
    reflexivity.
  - unfold wake.
    destruct (perform o (now (shared P)) (breaker (shared P)))
      as [r c | t |] eqn:Hperf.
    + rewrite Hperf. intros Hrun.
      set (P1 := {| goroutines := <[i := k r]> (goroutines P);
                    shared := commit o c (shared P) |}).
      assert (Hp1 : goroutines P1 !! i = Some (k r)).
      { apply list_lookup_insert_eq. apply lookup_lt_Some in Hp. exact Hp. }
      destruct (IH r P1 i w' Hp1 Hrun) as [sched Hs].
      exists (Go i :: sched). cbn [pool_exec pool_step]. rewrite Hp.
      cbn [step]. rewrite Hperf. fold P1. rewrite Hs.
      cbn [P1 goroutines]. rewrite list_insert_insert_eq. reflexivity.
    + destruct (perform_blocked _ _ _ _ Hperf) as (tm & -> & <- & Hlt).
      cbn [perform sleep_until now breaker]. rewrite Z.leb_refl.
      intros Hrun.
      set (dt := Z.to_N (when tm - now (shared P))).
      set (P0 := {| goroutines := goroutines P;
                    shared := tick dt (shared P) |}).
      assert (Hw : tick dt (shared P) = sleep_until (when tm) (shared P)).
      { unfold tick, sleep_until, dt. f_equal. lia. }
      set (P1 := {| goroutines := <[i := k tt]> (goroutines P);
                    shared := commit (timer_recv tm) (breaker (shared P))
                                (sleep_until (when tm) (shared P)) |}).
      assert (Hp1 : goroutines P1 !! i = Some (k tt)).
      { apply list_lookup_insert_eq. apply lookup_lt_Some in Hp. exact Hp. }
      destruct (IH tt P1 i w' Hp1 Hrun) as [sched Hs].
      exists (Pass dt :: Go i :: sched).
      cbn [pool_exec pool_step goroutines shared]. rewrite Hp.
      cbn [step]. rewrite Hw.
      cbn [perform sleep_until now breaker]. rewrite Z.leb_refl.
      fold P1. rewrite Hs. cbn [P1 goroutines].
      rewrite list_insert_insert_eq. reflexivity.
    + rewrite Hperf. discriminate.
Qed.
Lemma pool_finish_first (n : nat) :
  forall P : Pool M H,
    pool_inv P -> (n <= length (goroutines P))%nat ->
    exists sched P',
      pool_exec sched P = Some P' /\ pool_inv P' /\
      length (goroutines P') = length (goroutines P) /\
      forall i, (i < n)%nat -> goroutines P' !! i = Some (Ret tt).
Proof.
  induction n as [| n IH]; intros P Hinv Hn.
  - exists [], P. split; [reflexivity |]. split; [exact Hinv |].
    split; [reflexivity |]. intros i Hi. lia.
  - destruct (IH P Hinv ltac:(lia)) as (s1 & P1 & Hs1 & Hinv1 & Hl1 & Hdone).
    destruct (lookup_lt_is_Some_2 (goroutines P1) n ltac:(lia)) as [p Hp].
    assert (Hfin : exists w', run p (shared P1) = Some (tt, w')).
    { destruct Hinv1 as (Hm & ks & Hks & _).
      destruct (Forall2_lookup_l _ _ _ _ _ Hks Hp) as (k & _ & Hat).
      destruct Hat as [q Hi | q He].
      - destruct (idle_finishes q (shared P1) Hi Hm) as (w' & Hr & _). eauto.
      - destruct (episode_finishes q (shared P1) He) as (w' & Hr & _). eauto. }
    destruct Hfin as [w' Hrun].
    destruct (pool_runs_goroutine p P1 n w' Hp Hrun) as [s2 Hs2].
    destruct (pool_exec_inv _ _ _ Hinv1 Hs2) as [Hinv2 Hl2].
    eexists (s1 ++ s2), _. rewrite pool_exec_app, Hs1.
    split; [exact Hs2 |]. split; [exact Hinv2 |].
    split; [rewrite Hl2; exact Hl1 |].
    intros i Hi. cbn [goroutines].
    destruct (decide (i = n)) as [-> | Hne].
    + apply list_lookup_insert_eq. lia.
    + rewrite list_lookup_insert_ne by congruence. apply Hdone. lia.
Qed.

(** X5: fewer than 2^31 goroutines each call [RecordMetric] once on a
    breaker that is closed and has an engine.  Whatever they have done
    so far, the schedule can go on so that every call of [RecordMetric]
    returns: no call panics, and none is blocked for ever, since timers
    expire as time passes.  [OK()] then answers true. *)
Theorem every_call_returns (rs : list (Z * Duration)) (w : World M H)
    (sched : list choice) (P : Pool M H) :
  tripped (breaker w) = 0 -> is_Some (metrics (breaker w)) ->
  Z.of_nat (length rs) < 2 ^ 31 ->
  pool_exec sched (spawn rs w) = Some P ->
  exists sched' P',
    pool_exec (sched ++ sched') (spawn rs w) = Some P' /\
    (forall p, In p (goroutines P') -> p = Ret tt) /\
    OK_now (shared P') = Some true.
Proof.
  intros Hz Hm Hlen Hex.
  destruct (pool_exec_inv _ _ _ (pool_inv_spawn rs w Hz Hm) Hex)
    as [Hinv Hl].
  destruct (pool_finish_first (length (goroutines P)) P Hinv (le_n _))
    as (s' & P' & Hs' & Hinv' & Hl' & Hdone).
  exists s', P'. rewrite pool_exec_app, Hex. split; [exact Hs' |].
  assert (Hret : forall p, In p (goroutines P') -> p = Ret tt).
  { intros p Hin. apply list_elem_of_In, list_elem_of_lookup in Hin.
    destruct Hin as [i Hi]. pose proof (lookup_lt_Some _ _ _ Hi) as Hlt.
    rewrite Hdone in Hi by lia. congruence. }
  split; [exact Hret |].
  assert (Hn : Z.of_nat (length (goroutines P')) < 2 ^ 31).
  { rewrite Hl', Hl. unfold spawn. cbn [goroutines]. rewrite length_map.
    exact Hlen. }
  apply (pool_inv_closed P' Hinv' Hn).
  intros p Hp He. rewrite (Hret p Hp) in He.
  apply (idle_not_in_episode (Ret tt) I He).
Qed.
End PoolLiveness.

(** ** Recovery with several goroutines *)
Section PoolRecovery.
Context {M H : Type} `{RT : RTMetrics M H} `{AR : Arch}.

Lemma timed_at_later (d : Duration) (t t' : Z) (p : prog M H unit) s :
  t <= t' -> timed_at d t p s -> timed_at d t' p s.
Proof. intros Hle []; constructor; auto; lia. Qed.

Lemma timed_at_episode (d : Duration) (t : Z) (p : prog M H unit) tau :
  timed_at d t p (Some tau) -> in_episode p.
Proof. inversion 1; constructor. Qed.

(** One step of a goroutine, with the instruction it logs. *)
Lemma timed_step (d : Duration) (p : prog M H unit) s (w : World M H)
    p' w' :
  timed_at d (now w) p s -> is_Some (metrics (breaker w)) ->
  TripDuration (config (breaker w)) = d ->
  step p w = Some (p', w') ->
  exists s' o,
    timed_at d (now w) p' s' /\ now w' = now w /\
    log w' = log w ++ [(now w, o)] /\
    is_Some (metrics (breaker w')) /\
    config (breaker w') = config (breaker w) /\
    ((s' = s /\ is_trip o = false) \/
     (s = None /\ s' = Some (now w) /\ o = atomic_AddInt32 1) \/
     (exists tau, s = Some tau /\ s' = None /\ tau + d <= now w /\
                  is_trip o = false)).
Proof.
  intros Hat [m Hm] Hd Hstep. destruct w as [c t lg].
  cbn [breaker now log] in *. destruct Hat as [p Hi | tau | tau | tau tm | tau].
  - destruct p as [[] | o k0]; [discriminate Hstep |].
    cbn [idle] in Hi. destruct Hi as [[Ho Hk] | [-> Hk]].
    + cbn [step breaker now] in Hstep.
      assert (Hp : exists r c', perform o t c = Done r c' /\
                is_Some (metrics c') /\ config c' = config c /\
                is_trip o = false).
      { unfold keeps_tripped in Ho.
        destruct o; try discriminate Ho; cbn [perform];
          unfold with_metrics; rewrite ?Hm; eexists _, _;
          (split; [reflexivity |]);
          cbn [set_metrics metrics config is_trip]; rewrite ?Hm; eauto. }
      destruct Hp as (r & c' & Hp & Hm' & Hc & Ht). rewrite Hp in Hstep.
      injection Hstep as <- <-. exists None, o. cbn [breaker now log commit].
      split; [apply ta_idle, Hk |]. auto 10.
    + cbn [step perform breaker now] in Hstep. injection Hstep as <- <-.
      rewrite Hk. exists (Some t), (atomic_AddInt32 1).
      cbn [breaker now log commit set_tripped metrics config].
      split; [apply ta_incr; lia |]. rewrite Hm. eauto 10.
  - cbn in Hstep. injection Hstep as <- <-.
    exists (Some tau), load_TripDuration. cbn [breaker now log commit].
    rewrite Hd. split; [apply ta_load; assumption |]. rewrite Hm. eauto 10.
  - cbn in Hstep. injection Hstep as <- <-.
    exists (Some tau), (time_NewTimer d). cbn [breaker now log commit].
    split; [apply ta_waiting; cbn [when]; lia |]. rewrite Hm. eauto 10.
  - rewrite waiting_eq in Hstep. cbn [step perform now breaker] in Hstep.
    destruct (Z.leb_spec (when tm) t); [| discriminate Hstep].
    injection Hstep as <- <-.
    exists (Some tau), (timer_recv tm). cbn [breaker now log commit].
    split; [apply ta_woken; lia |]. rewrite Hm. eauto 10.
  - cbn [step perform breaker now after_wait] in Hstep.
    injection Hstep as <- <-.
    exists None, (atomic_AddInt32 (-1)).
    cbn [breaker now log commit set_tripped metrics config].
    split; [apply ta_idle; exact I |]. rewrite Hm.
    repeat split; eauto. right; right. exists tau. auto.
Qed.

Lemma pool_timed_step (w0 : World M H) (ch : choice) (P P' : Pool M H) :
  pool_timed w0 P -> pool_step ch P = Some P' -> pool_timed w0 P'.
Proof.
  intros (Hcfg & Hm & ts & l & Hts & Hlog & Hrec) Hstep.
  destruct ch as [dt | i].
  - injection Hstep as <-. unfold pool_timed. cbn [shared goroutines tick
      breaker now log]. split; [exact Hcfg |]. split; [exact Hm |].
    exists ts, l. split; [| split; [exact Hlog |]].
    + eapply Forall2_impl; [exact Hts |]. intros p s.
      apply timed_at_later. lia.
    + intros tau Hin Hlt. apply Hrec; [exact Hin | lia].
  - cbn [pool_step] in Hstep.
    destruct (goroutines P !! i) as [p |] eqn:Hp; [| discriminate].
    destruct (step p (shared P)) as [[p' w'] |] eqn:Hs; [| discriminate].
    injection Hstep as <-.
    destruct (Forall2_lookup_l _ _ _ _ _ Hts Hp) as (s & Hsi & Hat).
    assert (Hd : TripDuration (config (breaker (shared P)))
                 = TripDuration (config (breaker w0))) by (rewrite Hcfg; auto).
    destruct (timed_step _ _ _ _ _ _ Hat Hm Hd Hs)
      as (s' & o & Hat' & Hn & Hl' & Hm' & Hc' & Hcases).
    unfold pool_timed. cbn [shared goroutines].
    split; [congruence |]. split; [exact Hm' |].
    exists (<[i := s']> ts), (l ++ [(now (shared P), o)]).
    rewrite Hn. split; [| split].
    + apply Forall2_insert; assumption.
    + rewrite Hl', Hlog, app_assoc. reflexivity.
    + intros tau Hin Hlt. apply in_app_iff in Hin.
      assert (Hkeep : forall i0, ts !! i0 = Some (Some tau) -> i0 <> i ->
                In (Some tau) (<[i := s']> ts)).
      { intros i0 Hi0 Hne. apply list_elem_of_In, list_elem_of_lookup.
        exists i0. rewrite list_lookup_insert_ne by congruence. exact Hi0. }
      assert (Hhere : s' = Some tau -> In (Some tau) (<[i := s']> ts)).
      { intros ->. apply list_elem_of_In, list_elem_of_lookup. exists i.
        apply list_lookup_insert_eq. apply lookup_lt_Some in Hsi. exact Hsi. }
      destruct Hin as [Hin | [Hin | []]].
      * specialize (Hrec tau Hin Hlt).
        apply list_elem_of_In, list_elem_of_lookup in Hrec.
        destruct Hrec as [i0 Hi0].
        destruct (decide (i0 = i)) as [-> | Hne]; [| eauto].
        rewrite Hsi in Hi0. injection Hi0 as ->.
        destruct Hcases
          as [[-> _] | [[Hnone _] | (tau' & Hsome & _ & Hle & _)]].
        -- apply Hhere. reflexivity.
        -- discriminate Hnone.
        -- injection Hsome as <-. lia.
      * injection Hin as Htau Ho. subst o tau.
        destruct Hcases as [[_ Ht] | [(_ & -> & _) | (_ & _ & _ & _ & Ht)]];
          try discriminate Ht.
        apply Hhere. reflexivity.
Qed.

Lemma pool_timed_exec (w0 : World M H) (sched : list choice)
    (P P' : Pool M H) :
  pool_timed w0 P -> pool_exec sched P = Some P' -> pool_timed w0 P'.
Proof.
  revert P. induction sched as [| ch sched IH]; intros P Hinv; cbn [pool_exec].
  - intros [= <-]. exact Hinv.
  - destruct (pool_step ch P) as [P1 |] eqn:Hs; [| discriminate].
    apply IH. eapply pool_timed_step; eassumption.
Qed.

(** X6: fewer than 2^31 goroutines each call [RecordMetric] once on a
    breaker that is closed and has an engine.  Under any interleaving:
    once a goroutine has tripped at time [tau], [OK()] answers false at
    every time earlier than [tau] plus the trip duration, whatever the
    other goroutines do in between. *)
Theorem pool_recovery (rs : list (Z * Duration)) (w : World M H)
    (sched : list choice) (P : Pool M H) (tau : Z) :
  tripped (breaker w) = 0 -> is_Some (metrics (breaker w)) ->
  Z.of_nat (length rs) < 2 ^ 31 ->
  pool_exec sched (spawn rs w) = Some P ->
  In (tau, atomic_AddInt32 1) (calls w (shared P)) ->
  now (shared P) < tau + TripDuration (config (breaker w)) ->
  OK_now (shared P) = Some false.
Proof.
  intros Hz Hm Hlen Hex Hin Hlt.
  destruct (pool_exec_inv _ _ _ (pool_inv_spawn rs w Hz Hm) Hex)
    as [Hinv Hl].
  assert (Hn : Z.of_nat (length (goroutines P)) < 2 ^ 31).
  { rewrite Hl. unfold spawn. cbn [goroutines]. rewrite length_map.
    exact Hlen. }
  destruct (pool_inv_count P Hinv Hn) as (ks & Hks & Ht & _).
  assert (Hinit : pool_timed w (spawn rs w)).
  { split; [reflexivity |]. split; [exact Hm |].
    exists (map (fun _ => None) rs), []. split; [| split].
    - unfold spawn. cbn [goroutines]. clear.
      induction rs as [| r rs IH]; cbn [map]; constructor; [| exact IH].
      apply ta_idle, idle_RecordMetric.
    - symmetry. apply app_nil_r.
    - intros ? []. }
  destruct (pool_timed_exec _ _ _ _ Hinit Hex)
    as (_ & _ & ts & l & Hts & Hlog & Hrec).
  rewrite (calls_app _ _ _ Hlog) in Hin. specialize (Hrec tau Hin Hlt).
  apply list_elem_of_In, list_elem_of_lookup in Hrec. destruct Hrec as [i Hi].
  destruct (Forall2_lookup_r _ _ _ _ _ Hts Hi) as (p & Hp & Hat).
  pose proof (Zsum_episode _ _ _ _ Hks Hp (timed_at_episode _ _ _ _ Hat)).
  rewrite OK_now_eq, Ht.
  destruct (Z.eqb_spec (Zsum ks) 0); [lia | reflexivity].
Qed.
End PoolRecovery.

(** ** Sequences of calls and pools on concrete breakers *)
Section MoreWitnesses.
Import ListMetrics Examples.

(** Two goroutines record a response with status 500 each on a breaker
    at the brink: the first trips and resets the window, the second then
    sees a window of its response alone and trips as well.  The counter
    is 2, and stays above 0 until both have decremented. *)
Example overlapping_trips :
  let six i := [Go i; Go i; Go i; Go i; Go i; Go i] in
  let rs := [(500, 20 * Millisecond); (500, 20 * Millisecond)] in
  let tripped_after sched :=
    option_map (fun P => tripped (breaker (shared P)))
      (@pool_exec _ _ eng_ok sched (@spawn _ _ amd64 rs (w_status 11))) in
  tripped_after (six 0%nat) = Some 1 /\
  tripped_after (six 0%nat ++ six 1%nat) = Some 2 /\
  tripped_after (six 0%nat ++ six 1%nat
                 ++ [Go 0%nat; Go 0%nat; Pass 1000000000;
                     Go 0%nat; Go 0%nat]) = Some 1 /\
  tripped_after (six 0%nat ++ six 1%nat
                 ++ [Go 0%nat; Go 0%nat; Pass 1000000000;
                     Go 0%nat; Go 0%nat;
                     Go 1%nat; Go 1%nat; Pass 1000000000;
                     Go 1%nat; Go 1%nat]) = Some 0.
Proof. repeat split; vm_compute; reflexivity. Qed.

Lemma session_after_Provision_witness :
  let rs := [(500, 20 * Millisecond)] in
  let late := [Step; Step; Step; Step; Step; Step; Step; Step;
               Tick 1005000000; Step; Step] in
  exists w w1 w2,
    @run _ _ eng_ok _ Provision (fresh cfg_status) = Some (None, w) /\
    @run _ _ eng_ok _ (@session _ _ amd64 rs) w = Some (tt, w1) /\
    @exec _ _ eng_ok _ late (@session _ _ amd64 rs, w) = Some (Ret tt, w2) /\
    trip_count (calls w w2) = 1 /\
    now w2 = now w + 1005000000 /\
    @OK_now _ _ eng_ok w2 = Some true.
Proof.
  intros rs late.
  set (w := match @run _ _ eng_ok _ Provision (fresh cfg_status) with
            | Some (_, w) => w
            | None => fresh cfg_status
            end).
  assert (Hprov : @run _ _ eng_ok _ Provision (fresh cfg_status)
                  = Some (None, w)) by (vm_compute; reflexivity).
  destruct (@session_after_Provision _ _ eng_ok amd64 _ w rs Hprov)
    as [(w1 & Hrun & _) Hall].
  destruct (@exec _ _ eng_ok _ late (@session _ _ amd64 rs, w))
    as [[p2 w2] |] eqn:Hex; [| vm_compute in Hex; discriminate Hex].
  assert (Hp : p2 = Ret tt /\ trip_count (calls w w2) = 1
               /\ now w2 = now w + 1005000000).
  { vm_compute in Hex. injection Hex as <- <-.
    repeat split; vm_compute; reflexivity. }
  destruct Hp as (-> & Ht & Hn).
  exists w, w1, w2. split; [exact Hprov |]. split; [exact Hrun |].
  split; [exact Hex |]. split; [exact Ht |]. split; [exact Hn |].
  apply (Hall late w2 Hex).
Defined.

Lemma checkAndSet_without_policy_witness :
  exists w',
    @run _ _ eng_ok _ (@checkAndSet _ _ amd64) (fresh cfg_unknown)
    = Some (tt, w') /\
    breaker w' = breaker (fresh cfg_unknown).
Proof.
  destruct (@checkAndSet_without_policy _ _ eng_ok amd64 (fresh cfg_unknown))
    as (w' & Hrun & Hb & _); try (cbn; discriminate).
  exists w'. auto.
Defined.

Lemma Provision_again_witness :
  exists r w' w'',
    @run _ _ eng_ok _ Provision (fresh cfg_unset) = Some (r, w') /\
    @run _ _ eng_ok _ Provision w' = Some (r, w'') /\
    breaker w'' = breaker w'.
Proof.
  destruct (@Provision_again _ _ eng_ok (fresh cfg_unset))
    as (r & w' & w'' & H1 & H2 & Hb & _).
  exists r, w', w''. auto.
Defined.

Lemma pool_counter_witness :
  let six i := [Go i; Go i; Go i; Go i; Go i; Go i] in
  let rs := [(500, 20 * Millisecond); (500, 20 * Millisecond)] in
  exists P,
    @pool_exec _ _ eng_ok (six 0%nat ++ six 1%nat)
      (@spawn _ _ amd64 rs (w_status 11)) = Some P /\
    0 <= tripped (breaker (shared P)) <= 2 /\
    @OK_now _ _ eng_ok (shared P) = Some false.
Proof.
  intros six rs.
  destruct (@pool_exec _ _ eng_ok (six 0%nat ++ six 1%nat)
              (@spawn _ _ amd64 rs (w_status 11))) as [P |] eqn:Hex;
    [| vm_compute in Hex; discriminate Hex].
  destruct (@pool_counter _ _ eng_ok amd64 rs (w_status 11) _ P
              eq_refl (ex_intro _ _ eq_refl) eq_refl Hex)
    as (_ & Hb & Hopen & _).
  exists P. split; [reflexivity |]. split; [exact Hb |].
  apply Hopen. exists 0%nat.
  vm_compute in Hex. injection Hex as <-.
  eexists. split; [reflexivity |]. apply ep_incr.
Defined.

Lemma every_call_returns_witness :
  let six i := [Go i; Go i; Go i; Go i; Go i; Go i] in
  let rs := [(500, 20 * Millisecond); (500, 20 * Millisecond)] in
  exists sched' P',
    @pool_exec _ _ eng_ok ((six 0%nat ++ six 1%nat) ++ sched')
      (@spawn _ _ amd64 rs (w_status 11)) = Some P' /\
    (forall p, In p (goroutines P') -> p = Ret tt) /\
    @OK_now _ _ eng_ok (shared P') = Some true.
Proof.
  intros six rs.
  destruct (@pool_exec _ _ eng_ok (six 0%nat ++ six 1%nat)
              (@spawn _ _ amd64 rs (w_status 11))) as [P |] eqn:Hex;
    [| vm_compute in Hex; discriminate Hex].
  apply (@every_call_returns _ _ eng_ok amd64 rs (w_status 11) _ P
           eq_refl (ex_intro _ _ eq_refl) eq_refl Hex).
Defined.
Lemma pool_recovery_witness :
  let six i := [Go i; Go i; Go i; Go i; Go i; Go i] in
  let rs := [(500, 20 * Millisecond); (500, 20 * Millisecond)] in
  let sched := six 0%nat ++ six 1%nat
               ++ [Go 0%nat; Go 0%nat; Pass 999999999; Go 1%nat] in
  exists P,
    @pool_exec _ _ eng_ok sched (@spawn _ _ amd64 rs (w_status 11))
    = Some P /\
    now (shared P) = now (w_status 11) + 999999999 /\
    @OK_now _ _ eng_ok (shared P) = Some false.
Proof.
  intros six rs sched.
  destruct (@pool_exec _ _ eng_ok sched (@spawn _ _ amd64 rs (w_status 11)))
    as [P |] eqn:Hex; [| vm_compute in Hex; discriminate Hex].
  exists P. split; [reflexivity |].
  assert (HP : Some P = Some P) by reflexivity.
  rewrite <- Hex in HP at 1. vm_compute in HP. injection HP as HP.
  split; [rewrite <- HP; reflexivity |].
  apply (@pool_recovery _ _ eng_ok amd64 rs (w_status 11) sched P
           (now (w_status 11)) eq_refl (ex_intro _ _ eq_refl) eq_refl Hex).
  - rewrite <- HP. vm_compute.
    repeat first [left; reflexivity | right].
  - rewrite <- HP. vm_compute. reflexivity.
Defined.
End MoreWitnesses.
